(** * concat-js.py: recursive concatenation of the [.js] files of a directory

    A shallow embedding of [src/concat-js.py] and the proofs of its
    specification.

    - Text is kept as its bytes: a [string] holds the UTF-8 encoding of
      a Python [str], and a file name that is not valid UTF-8 holds the
      bytes the operating system has for it (Python decodes such a name
      with lone surrogates, which encode back to these bytes and to
      nothing else).  A stream opened with [encoding="utf-8"] accepts a
      text exactly when its bytes are valid UTF-8 ([valid_utf8]).
    - A path is the list of its components below the root of the file
      system; [os.path.join root filename] is [root ++ [filename]].
    - The file system is a tree.  A directory keeps its entries in the
      order its listing returns them, which is the order [os.walk]
      reports.  A symbolic link is the entry it resolves to, seen through
      the link: two paths to one file are two entries of the tree, and
      the output file is reached by its own path only.
    - The program runs in a small state-and-exception monad over a
      [world]: the file system, the chunks handed to the open output
      stream, and the log of the operations performed.  A run that waits
      for ever (on a FIFO nobody writes to) ends in [Blocked].
    - Line ends are those of POSIX: writing ["\n"] writes one byte. *)

From Stdlib Require Import List String Ascii Bool Arith Lia.
Import ListNotations.
Local Open Scope list_scope.
Local Open Scope string_scope.
Set Warnings "-register-all".

(** ** Strings *)

(** Python's [s.endswith(suffix)]. *)
Definition endswith (s suffix : string) : bool :=
  Nat.leb (String.length suffix) (String.length s) &&
  String.eqb
    (substring (String.length s - String.length suffix)
               (String.length suffix) s)
    suffix.

(** The text of a list of [write] calls, in order. *)
Definition text_of (chunks : list string) : string :=
  String.concat "" chunks.

Definition nl : string := String (ascii_of_nat 10) EmptyString.

(** ** UTF-8 *)

(** The bytes a character still needs, each with the range it must lie
    in (the table of well-formed byte sequences of the Unicode
    standard: no overlong form, no surrogate, nothing above U+10FFFF). *)
Definition pending := list (nat * nat).

Definition start_byte (b : nat) : option pending :=
  if Nat.leb b 127 then Some []
  else if Nat.leb 194 b && Nat.leb b 223 then Some [(128, 191)]
  else if Nat.eqb b 224 then Some [(160, 191); (128, 191)]
  else if Nat.leb 225 b && Nat.leb b 236 then Some [(128, 191); (128, 191)]
  else if Nat.eqb b 237 then Some [(128, 159); (128, 191)]
  else if Nat.leb 238 b && Nat.leb b 239 then Some [(128, 191); (128, 191)]
  else if Nat.eqb b 240 then Some [(144, 191); (128, 191); (128, 191)]
  else if Nat.leb 241 b && Nat.leb b 243
       then Some [(128, 191); (128, 191); (128, 191)]
  else if Nat.eqb b 244 then Some [(128, 143); (128, 191); (128, 191)]
  else None.

Definition utf8_step (p : pending) (b : nat) : option pending :=
  match p with
  | [] => start_byte b
  | (lo, hi) :: rest =>
      if Nat.leb lo b && Nat.leb b hi then Some rest else None
  end.

Fixpoint utf8_run (p : pending) (s : string) : option pending :=
  match s with
  | EmptyString => Some p
  | String c s' =>
      match utf8_step p (nat_of_ascii c) with
      | Some p' => utf8_run p' s'
      | None => None
      end
  end.

(** The bytes are the UTF-8 encoding of some text: what the strict
    [utf-8] codec decodes, and what it produces. *)
Definition valid_utf8 (s : string) : bool :=
  match utf8_run [] s with
  | Some [] => true
  | _ => false
  end.

(** The bytes awaited after a first byte are continuation bytes. *)
Definition tail_ranges (p : pending) : Prop :=
  Forall (fun r => 128 <= fst r /\ snd r <= 191) p.

Definition CR : ascii := ascii_of_nat 13.
Definition LF : ascii := ascii_of_nat 10.

(** Reading in text mode with the default [newline=None]: the line ends
    [\r\n] and [\r] both come out as [\n]. *)
Fixpoint universal_newlines (s : string) : string :=
  match s with
  | EmptyString => EmptyString
  | String c s' =>
      if Ascii.eqb c CR then
        String LF
          match s' with
          | String c' s'' =>
              if Ascii.eqb c' LF then universal_newlines s''
              else universal_newlines s'
          | EmptyString => EmptyString
          end
      else String c (universal_newlines s')
  end.

(** The text of an exception.  Python builds it so that it can always be
    encoded: a path is shown escaped.  The texts below are shortened:
    Python's own also name the path, or the byte that does not decode
    and its position; nothing depends on them beyond the fact that they
    can be encoded. *)
Definition message : Type := { s : string | valid_utf8 s = true }.

Definition text_of_message (m : message) : string := proj1_sig m.

Definition permission_denied : message :=
  exist _ "[Errno 13] Permission denied" eq_refl.
Definition no_such_file : message :=
  exist _ "[Errno 2] No such file or directory" eq_refl.
Definition is_a_directory : message :=
  exist _ "[Errno 21] Is a directory" eq_refl.
Definition cannot_decode : message :=
  exist _ "'utf-8' codec can't decode bytes" eq_refl.
Definition cannot_encode : message :=
  exist _ "'utf-8' codec can't encode characters: surrogates not allowed"
        eq_refl.

(** ** The file system *)

Definition name := string.
Definition path := list name.

(** How a path is shown inside a message. *)
Definition show_path (p : path) : string := String.concat "/" p.

(** - [File deny raw] is a regular file with its bytes, or a link to
      one.  [deny] is the error that opening it for reading raises, if
      any (permissions, a dangling link, a socket).
    - [Fifo] is an entry on which [open] never returns: a FIFO that no
      other process has open.
    - [Dir link listable entries] is a directory with its listing, or,
      when [link] is set, a symbolic link to one.  When [listable] is
      not set the directory cannot be listed, though its entries can be
      opened by name. *)
Inductive node : Type :=
| File (deny : option message) (raw : string)
| Fifo
| Dir (link listable : bool) (entries : list (name * node)).

(** [os.path.isdir], which follows links. *)
Definition is_dir (n : node) : bool :=
  match n with Dir _ _ _ => true | _ => false end.

(** The sub-directories [os.walk] enters: it does not follow links. *)
Definition entered (n : node) : bool :=
  match n with Dir false _ _ => true | _ => false end.

(** The first entry called [x], as name resolution finds it. *)
Fixpoint assoc (x : name) (es : list (name * node)) : option node :=
  match es with
  | [] => None
  | (y, c) :: es' => if String.eqb x y then Some c else assoc x es'
  end.

(** Replace the first entry called [x]. *)
Fixpoint replace (x : name) (c : node) (es : list (name * node))
  : list (name * node) :=
  match es with
  | [] => []
  | (y, d) :: es' =>
      if String.eqb x y then (y, c) :: es' else (y, d) :: replace x c es'
  end.

Fixpoint lookup (n : node) (p : path) : option node :=
  match p with
  | [] => Some n
  | x :: p' =>
      match n with
      | Dir _ _ es => match assoc x es with
                      | Some c => lookup c p'
                      | None => None
                      end
      | _ => None
      end
  end.

Definition isdir (fs : node) (p : path) : bool :=
  match lookup fs p with
  | Some n => is_dir n
  | None => false
  end.

(** What [open(p, "r", encoding="utf-8")] followed by [read()] gives:
    the text, an exception, or nothing ever. *)
Inductive read_result : Type :=
| Text (contenuto : string)
| Error (e : message)
| Blocks.

(** The strict decoding of the bytes of a file, then the translation of
    its line ends. *)
Definition decode (raw : string) : read_result :=
  if valid_utf8 raw then Text (universal_newlines raw)
  else Error cannot_decode.

Definition read_node (n : option node) : read_result :=
  match n with
  | Some (File (Some e) _) => Error e
  | Some (File None raw) => decode raw
  | Some Fifo => Blocks
  | Some (Dir _ _ _) => Error is_a_directory
  | None => Error no_such_file
  end.

(** Opening [p] for reading and reading it whole. *)
Definition read_path (fs : node) (p : path) : read_result :=
  read_node (lookup fs p).

(** Opening [p] for writing: the file is truncated, or created at the end
    of its directory's listing.  There is no result when [p] names a
    directory or a FIFO, or when the directory that should hold it does
    not exist. *)
Fixpoint open_w (n : node) (p : path) : option node :=
  match n, p with
  | Dir l r es, [x] =>
      match assoc x es with
      | Some (File deny _) => Some (Dir l r (replace x (File deny "") es))
      | Some _ => None
      | None => Some (Dir l r (es ++ [(x, File None "")])%list)
      end
  | Dir l r es, x :: p' =>
      match assoc x es with
      | Some c => match open_w c p' with
                  | Some c' => Some (Dir l r (replace x c' es))
                  | None => None
                  end
      | None => None
      end
  | _, _ => None
  end.

(** What [open(p, "w", encoding="utf-8")] does: on a FIFO nobody reads
    it waits for ever; otherwise it gives the new file system or raises. *)
Inductive open_result : Type :=
| Opened (fs' : node)
| Refused
| Waits.

Definition open_for_writing (fs : node) (p : path) : open_result :=
  match lookup fs p with
  | Some Fifo => Waits
  | _ => match open_w fs p with
         | Some fs' => Opened fs'
         | None => Refused
         end
  end.

(** The bytes of the file at [p] become [raw]; nothing else changes. *)
Fixpoint put_raw (n : node) (p : path) (raw : string) : node :=
  match p, n with
  | [], File deny _ => File deny raw
  | x :: p', Dir l r es =>
      match assoc x es with
      | Some c => Dir l r (replace x (put_raw c p' raw) es)
      | None => n
      end
  | _, _ => n
  end.

(** The names [os.walk] reports for one directory: the sub-directories,
    links to directories included, and the other entries, each in
    listing order. *)
Definition dirnames (es : list (name * node)) : list name :=
  map fst (filter (fun e => is_dir (snd e)) es).

Definition filenames (es : list (name * node)) : list name :=
  map fst (filter (fun e => negb (is_dir (snd e))) es).

(** [os.walk top] (top-down, [followlinks=False], [onerror=None]): the
    triple of a directory comes first, then the walks of its
    sub-directories in listing order.  A directory that cannot be listed
    gives nothing, and a sub-directory that is a link is reported in
    [dirs] but not walked. *)
Fixpoint walk_node (top : path) (n : node)
  : list (path * list name * list name) :=
  match n with
  | Dir _ true es =>
      (top, dirnames es, filenames es) ::
      (fix below (l : list (name * node)) :=
         match l with
         | [] => []
         | (x, c) :: l' =>
             ((if entered c then walk_node (top ++ [x]) c else [])
              ++ below l')%list
         end) es
  | _ => []
  end.

Definition os_walk (fs : node) (top : path)
  : list (path * list name * list name) :=
  match lookup fs top with
  | Some n => walk_node top n
  | None => []
  end.

(** ** The state and exception monad *)

Inductive event : Type :=
| EvPrint (line : string)
| EvIsdir (p : path)
| EvOpenW (p : path)
| EvScandir (p : path)
| EvRead (p : path)
| EvWrite (p : path) (s : string)
| EvClose (p : path).

(** [w_out] holds the chunks handed to the output stream since it was
    opened. *)
Record world : Type := World {
  w_fs : node;
  w_out : list string;
  w_log : list event
}.

(** [Blocked] is not an exception: the process waits for ever and nothing
    that follows is run. *)
Inductive exn : Type :=
| SystemExit (code : nat)
| Exception (msg : string)
| Blocked.

Definition M (A : Type) : Type := world -> (exn + A) * world.

Definition ret {A} (a : A) : M A := fun w => (inr a, w).

Definition bind {A B} (m : M A) (k : A -> M B) : M B :=
  fun w =>
    match m w with
    | (inr a, w') => k a w'
    | (inl e, w') => (inl e, w')
    end.

Definition raise {A} (e : exn) : M A := fun w => (inl e, w).

(** [try: m except Exception as e: h e].  [SystemExit] is not an
    [Exception] and passes through. *)
Definition try_except {A} (m : M A) (h : string -> M A) : M A :=
  fun w =>
    match m w with
    | (inl (Exception e), w') => h e w'
    | r => r
    end.

(** [try: m finally: c]. *)
Definition finally {A} (m : M A) (c : M unit) : M A :=
  fun w =>
    match m w with
    | (inl Blocked, w') => (inl Blocked, w')
    | (r, w') =>
        match c w' with
        | (inr _, w'') => (r, w'')
        | (inl e, w'') => (inl e, w'')
        end
    end.

Declare Scope prog_scope.
Delimit Scope prog_scope with prog.
Notation "x <- m ;; k" := (bind m (fun x => k))
  (at level 61, m at next level, right associativity) : prog_scope.
Notation "m ;; k" := (bind m (fun _ => k))
  (at level 61, right associativity) : prog_scope.
Local Open Scope prog_scope.

Definition when (b : bool) (m : M unit) : M unit :=
  if b then m else ret tt.

Fixpoint for_each {A} (l : list A) (body : A -> M unit) : M unit :=
  match l with
  | [] => ret tt
  | x :: l' => body x ;; for_each l' body
  end.

Definition emit (e : event) : M unit :=
  fun w => (inr tt, World (w_fs w) (w_out w) (w_log w ++ [e])).

(** ** The operations the program calls *)

(** Standard output takes any text, as it does with the
    [surrogateescape] handler Python gives it in the C and POSIX
    locales. *)
Definition print (line : string) : M unit := emit (EvPrint line).

Definition sys_exit {A} (code : nat) : M A := raise (SystemExit code).

Definition os_path_isdir (p : path) : M bool :=
  emit (EvIsdir p) ;; fun w => (inr (isdir (w_fs w) p), w).

Definition os_path_join (root : path) (filename : name) : path :=
  (root ++ [filename])%list.

(** [sys.argv[i]] for [i >= 1]; [sys.argv[0]] is the program's name. *)
Definition argv (args : list path) (i : nat) : M path :=
  match nth_error args (i - 1) with
  | Some a => ret a
  | None => raise (Exception "list index out of range")
  end.

Definition read_text (p : path) : M string :=
  emit (EvRead p) ;;
  fun w =>
    match read_path (w_fs w) p with
    | Text t => (inr t, w)
    | Error e => (inl (Exception (text_of_message e)), w)
    | Blocks => (inl Blocked, w)
    end.

Definition open_write (p : path) : M path :=
  emit (EvOpenW p) ;;
  fun w =>
    match open_for_writing (w_fs w) p with
    | Opened fs' => (inr p, World fs' [] (w_log w))
    | Refused =>
        (inl (Exception ("cannot open '" ++ show_path p ++ "' for writing")),
         w)
    | Waits => (inl Blocked, w)
    end.

Section Program.

(** The output stream is buffered: while it is open, the output file
    holds what the stream has passed on so far, a function of the
    [write] calls made that the program does not control.
    [flushed chunks] is the bytes of the file at that point. *)
Variable flushed : list string -> string.

(** [out.write(s)]: the text is encoded first, and a text with a lone
    surrogate raises [UnicodeEncodeError] before anything is written. *)
Definition write (out : path) (s : string) : M unit :=
  if valid_utf8 s then
    emit (EvWrite out s) ;;
    fun w =>
      let chunks := (w_out w ++ [s])%list in
      (inr tt, World (put_raw (w_fs w) out (flushed chunks)) chunks (w_log w))
  else raise (Exception (text_of_message cannot_encode)).

(** Closing passes everything on. *)
Definition close (out : path) : M unit :=
  emit (EvClose out) ;;
  fun w =>
    (inr tt,
     World (put_raw (w_fs w) out (text_of (w_out w))) (w_out w) (w_log w)).

(** [with open(p, "w", encoding="utf-8") as out: body out]. *)
Definition with_open_write {A} (p : path) (body : path -> M A) : M A :=
  out <- open_write p ;; finally (body out) (close out).

(** [for root, dirs, files in os.walk(top): body].  The generator lists a
    directory when the loop reaches it; the listings are those of the file
    system at the start of the loop, since the loop bodies of this program
    only change the bytes of the output file ([os_walk_put_raw]). *)
Definition for_os_walk (top : path)
    (body : path * list name * list name -> M unit) : M unit :=
  fun w =>
    for_each (os_walk (w_fs w) top)
             (fun t => emit (EvScandir (fst (fst t))) ;; body t) w.

(** ** The program *)

Definition processa_js_files (cartella file_output : path) : M unit :=
  with_open_write file_output (fun out =>
    for_os_walk cartella (fun '(root, dirs, files) =>
      for_each files (fun filename =>
        if endswith filename ".js" then
          let percorso_file := os_path_join root filename in
          write out ("//" ++ filename ++ nl) ;;
          try_except
            (contenuto <- read_text percorso_file ;;
             write out (contenuto ++ nl))
            (fun e =>
               write out ("// Impossibile leggere " ++ filename ++ ": "
                          ++ e ++ nl))
        else ret tt))).

Definition main (prog : string) (args : list path) : M unit :=
  when (negb (Nat.eqb (1 + List.length args) 3))
    (print ("Uso: " ++ prog ++ " <cartella_di_input> <file_di_output>") ;;
     sys_exit 1) ;;
  cartella_di_input <- argv args 1 ;;
  file_di_output <- argv args 2 ;;
  ok <- os_path_isdir cartella_di_input ;;
  when (negb ok)
    (print ("Errore: " ++ show_path cartella_di_input
            ++ " non è una cartella valida.") ;;
     sys_exit 1) ;;
  processa_js_files cartella_di_input file_di_output ;;
  print ("Elaborazione completata. Output salvato in "
         ++ show_path file_di_output).

(** The exit status of the process: an exception nobody catches prints a
    traceback and gives status 1; a process that waits for ever has
    none. *)
Definition exit_status (r : exn + unit) : option nat :=
  match r with
  | inr _ => Some 0
  | inl (SystemExit c) => Some c
  | inl (Exception _) => Some 1
  | inl Blocked => None
  end.

Definition start (fs : node) : world := World fs [] [].

Definition run_main (prog : string) (args : list path) (fs : node)
  : option nat * world :=
  let (r, w) := main prog args (start fs) in (exit_status r, w).

End Program.

(** ** What the claims speak about *)

Definition is_js (filename : name) : bool := endswith filename ".js".

(** The candidate files of a walk, in the order the two loops reach
    them: the directory reported and the name. *)
Definition candidates_of (triples : list (path * list name * list name))
  : list (path * name) :=
  flat_map (fun t => map (pair (fst (fst t))) (filter is_js (snd t))) triples.

Definition candidates (fs : node) (top : path) : list (path * name) :=
  candidates_of (os_walk fs top).

(** The path of a candidate file, as the program opens it. *)
Definition path_of (c : path * name) : path := os_path_join (fst c) (snd c).

(** The entries that are not directories and whose name satisfies [P],
    in the directories the walk lists, counted entry by entry. *)
Fixpoint count_files (P : name -> bool) (n : node) : nat :=
  match n with
  | Dir _ true es =>
      (fix over (l : list (name * node)) : nat :=
         match l with
         | [] => 0
         | (x, c) :: l' =>
             match c with
             | Dir false _ _ => count_files P c
             | Dir true _ _ => 0
             | _ => if P x then 1 else 0
             end + over l'
         end) es
  | _ => 0
  end.

Definition count_under (P : name -> bool) (fs : node) (top : path) : nat :=
  match lookup fs top with
  | Some n => count_files P n
  | None => 0
  end.

(** The same count over the whole tree, through links and through
    directories that cannot be listed. *)
Fixpoint count_all (P : name -> bool) (n : node) : nat :=
  match n with
  | Dir _ _ es =>
      (fix over (l : list (name * node)) : nat :=
         match l with
         | [] => 0
         | (x, c) :: l' =>
             match c with
             | Dir _ _ _ => count_all P c
             | _ => if P x then 1 else 0
             end + over l'
         end) es
  | _ => 0
  end.

Definition count_all_under (P : name -> bool) (fs : node) (top : path)
  : nat :=
  match lookup fs top with
  | Some n => count_all P n
  | None => 0
  end.

(** No directory of the tree is a link or cannot be listed; the top may
    be a link, which [os.walk] follows. *)
Fixpoint plain (n : node) : bool :=
  match n with
  | Dir _ r es =>
      r &&
      (fix all (l : list (name * node)) : bool :=
         match l with
         | [] => true
         | (_, c) :: l' =>
             match c with
             | Dir true _ _ => false
             | _ => plain c
             end && all l'
         end) es
  | _ => true
  end.

Definition plain_under (fs : node) (top : path) : bool :=
  match lookup fs top with
  | Some n => plain n
  | None => true
  end.

(** The entries counted by [count_files], one at a time. *)
Definition count_entry (P : name -> bool) (e : name * node) : nat :=
  match snd e with
  | Dir false _ _ => count_files P (snd e)
  | Dir true _ _ => 0
  | _ => if P (fst e) then 1 else 0
  end.

(** The listing of the directory the walk reaches at [rel] below [n]:
    every directory on the way can be listed and none but the first is
    a link. *)
Fixpoint walked (n : node) (rel : path) : option (list (name * node)) :=
  match n with
  | Dir _ true es =>
      match rel with
      | [] => Some es
      | x :: rel' =>
          match assoc x es with
          | Some c => if entered c then walked c rel' else None
          | None => None
          end
      end
  | _ => None
  end.

(** The bytes stored in the file at [p], whoever may read it. *)
Definition content_at (fs : node) (p : path) : option string :=
  match lookup fs p with
  | Some (File _ raw) => Some raw
  | _ => None
  end.

Fixpoint is_prefix (p q : path) : bool :=
  match p, q with
  | [], _ => true
  | x :: p', y :: q' => String.eqb x y && is_prefix p' q'
  | _ :: _, [] => false
  end.

(** The candidate lets the run go on: its header can be written and
    opening it returns. *)
Definition returns (fs : node) (p : path) : bool :=
  match lookup fs p with
  | Some Fifo => false
  | _ => true
  end.

Definition passes (fs : node) (c : path * name) : bool :=
  valid_utf8 (snd c) && returns fs (path_of c).

Definition header (filename : name) : string := "//" ++ filename ++ nl.

Definition annotation (filename : name) (e : string) : string :=
  "// Impossibile leggere " ++ filename ++ ": " ++ e ++ nl.

(** One block of the output: where the file is, and what reading it
    gave, the text or the error. *)
Record block : Type := Block {
  b_dir : path;
  b_name : name;
  b_seen : string + message
}.

Definition b_where (b : block) : path * name := (b_dir b, b_name b).
Definition b_path (b : block) : path := os_path_join (b_dir b) (b_name b).

Definition body (b : block) : string :=
  match b_seen b with
  | inl contenuto => contenuto ++ nl
  | inr e => annotation (b_name b) (text_of_message e)
  end.

Definition render (b : block) : list string := [header (b_name b); body b].

(** How the loops end: after the last candidate, at a candidate whose
    header cannot be encoded, or at one whose opening never returns. *)
Inductive ending : Type :=
| Finished
| Aborted
| Hung (root : path) (filename : name).

Definition result_of (e : ending) : exn + unit :=
  match e with
  | Finished => inr tt
  | Aborted => inl (Exception (text_of_message cannot_encode))
  | Hung _ _ => inl Blocked
  end.

(** The chunk written for a candidate whose opening never returns. *)
Definition last_chunks (e : ending) : list string :=
  match e with
  | Hung _ filename => [header filename]
  | _ => []
  end.

Section Blocks.

Variable flushed : list string -> string.
Variable fs0 : node.
Variable out : path.

(** The blocks of a list of candidates when [chunks] have been written
    so far, and how the loops end: each file is read in the file system
    as it is then. *)
Fixpoint blocks_from (chunks : list string) (cands : list (path * name))
  : list block * ending :=
  match cands with
  | [] => ([], Finished)
  | (root, filename) :: rest =>
      if valid_utf8 (header filename) then
        let chunks1 := (chunks ++ [header filename])%list in
        let go seen :=
          let b := Block root filename seen in
          let (bs, e) := blocks_from (chunks1 ++ [body b])%list rest in
          (b :: bs, e) in
        match read_path (put_raw fs0 out (flushed chunks1))
                        (os_path_join root filename) with
        | Text contenuto => go (inl contenuto)
        | Error e => go (inr e)
        | Blocks => ([], Hung root filename)
        end
      else ([], Aborted)
  end.

End Blocks.

(** How the loops end, read off the names and the kinds of the
    candidates. *)
Fixpoint ending_of (fs0 : node) (cands : list (path * name)) : ending :=
  match cands with
  | [] => Finished
  | c :: rest =>
      if valid_utf8 (snd c) then
        if returns fs0 (path_of c) then ending_of fs0 rest
        else Hung (fst c) (snd c)
      else Aborted
  end.

(** ** The state of a run, as the proofs follow it *)

Section LoopState.

Variable flushed : list string -> string.
Variable fs0 : node.
Variable out : path.

(** The bytes of the output file once [chunks] are written. *)
Definition visible (chunks : list string) : string :=
  match chunks with
  | [] => ""
  | _ :: _ => flushed chunks
  end.

(** While the output is open, the file system is the one [open_w] left,
    with the visible part of the chunks in the output file. *)
Definition tracks (w : world) : Prop :=
  w_fs w = put_raw fs0 out (visible (w_out w)).

(** From [w], the program [m] ends as [e] does, having written [chunks]
    and performed [evs]. *)
Definition runs (m : M unit) (w : world) (e : ending)
    (chunks : list string) (evs : list event) : Prop :=
  m w =
  (result_of e,
   World (put_raw fs0 out (visible (w_out w ++ chunks)))
         (w_out w ++ chunks) (w_log w ++ evs)).

(** The body of the loop over [files]. *)
Definition per_file (root : path) (filename : name) : M unit :=
  if endswith filename ".js" then
    let percorso_file := os_path_join root filename in
    write flushed out ("//" ++ filename ++ nl) ;;
    try_except
      (contenuto <- read_text percorso_file ;;
       write flushed out (contenuto ++ nl))
      (fun e =>
         write flushed out ("// Impossibile leggere " ++ filename ++ ": "
                            ++ e ++ nl))
  else ret tt.

End LoopState.

(** The three ways [open_w] succeeds. *)
Inductive opened (x : name) (p : path) (n fs0 : node) : Prop :=
| opened_truncate l r es d t :
    p = [] -> n = Dir l r es -> assoc x es = Some (File d t) ->
    fs0 = Dir l r (replace x (File d "") es) -> opened x p n fs0
| opened_create l r es :
    p = [] -> n = Dir l r es -> assoc x es = None ->
    fs0 = Dir l r (es ++ [(x, File None "")]) -> opened x p n fs0
| opened_below l r es c c' :
    p <> [] -> n = Dir l r es -> assoc x es = Some c ->
    open_w c p = Some c' ->
    fs0 = Dir l r (replace x c' es) -> opened x p n fs0.

(** ** Induction on trees *)

Section NodeInduction.

Variable P : node -> Prop.
Hypothesis P_File : forall d t, P (File d t).
Hypothesis P_Fifo : P Fifo.
Hypothesis P_Dir :
  forall l r es, Forall (fun e => P (snd e)) es -> P (Dir l r es).

Fixpoint node_induction (n : node) : P n :=
  match n with
  | File d t => P_File d t
  | Fifo => P_Fifo
  | Dir l r es =>
      P_Dir l r es
        ((fix all (l : list (name * node)) : Forall (fun e => P (snd e)) l :=
            match l with
            | [] => Forall_nil _
            | e :: l' => Forall_cons e (node_induction (snd e)) (all l')
            end) es)
  end.

End NodeInduction.

(** ** The run of the loops, block by block *)

(** The chunks written for some blocks and the ending that follows. *)
Definition chunks_of (r : list block * ending) : list string :=
  (flat_map render (fst r) ++ last_chunks (snd r))%list.

(** What the program does for one block: it writes the header, opens the
    file for reading, and writes the second chunk. *)
Definition events_of_block (out : path) (b : block) : list event :=
  [EvWrite out (header (b_name b)); EvRead (b_path b); EvWrite out (body b)].

(** What it does for the candidate at which the loops stop. *)
Definition last_events (out : path) (e : ending) : list event :=
  match e with
  | Hung root filename =>
      [EvWrite out (header filename); EvRead (os_path_join root filename)]
  | _ => []
  end.

Definition events_of (out : path) (r : list block * ending) : list event :=
  (flat_map (events_of_block out) (fst r) ++ last_events out (snd r))%list.

(** The output is closed unless the process waits for ever. *)
Definition closing (out : path) (e : ending) : list event :=
  match e with
  | Hung _ _ => []
  | _ => [EvClose out]
  end.

Section Trace.

Variable flushed : list string -> string.
Variable fs0 : node.
Variable out : path.

(** The operations of the loop over a walk when [chunks] have been
    written so far: each directory is listed, then its candidate files
    are handled one after the other, until the loops end. *)
Fixpoint trace_of (chunks : list string)
    (triples : list (path * list name * list name)) : list event :=
  match triples with
  | [] => []
  | t :: rest =>
      let r := blocks_from flushed fs0 out chunks
                 (map (pair (fst (fst t))) (filter is_js (snd t))) in
      (EvScandir (fst (fst t)) :: events_of out r ++
       match snd r with
       | Finished => trace_of (chunks ++ flat_map render (fst r)) rest
       | _ => []
       end)%list
  end.

(** The bytes of the output file when the run is over. *)
Definition final_raw (e : ending) (chunks : list string) : string :=
  match e with
  | Hung _ _ => flushed chunks
  | _ => text_of chunks
  end.

End Trace.

(** The blocks of a run: the candidates below [cartella] in the file
    system [fs0] that opening the output left. *)
Definition run_result (flushed : list string -> string) (fs0 : node)
    (cartella out : path) : list block * ending :=
  blocks_from flushed fs0 out [] (candidates fs0 cartella).

Definition run_blocks (flushed : list string -> string) (fs0 : node)
    (cartella out : path) : list block :=
  fst (run_result flushed fs0 cartella out).

Definition run_ending (flushed : list string -> string) (fs0 : node)
    (cartella out : path) : ending :=
  snd (run_result flushed fs0 cartella out).

Definition run_chunks (flushed : list string -> string) (fs0 : node)
    (cartella out : path) : list string :=
  chunks_of (run_result flushed fs0 cartella out).

(** The file system when candidate number [i] is opened for reading:
    the chunks of the earlier blocks and its own header are written. *)
Definition fs_at_read (flushed : list string -> string) (fs0 : node)
    (out : path) (chunks : list string) (i : nat) : node :=
  put_raw fs0 out (flushed (firstn (2 * i + 1) chunks)).

(** The lines [main] prints. *)
Definition usage (prog : string) : string :=
  "Uso: " ++ prog ++ " <cartella_di_input> <file_di_output>".

Definition not_a_directory (cartella : path) : string :=
  "Errore: " ++ show_path cartella ++ " non è una cartella valida.".

Definition completed (out : path) : string :=
  "Elaborazione completata. Output salvato in " ++ show_path out.

(** The files a log opens for reading, the lines it prints and the files
    it writes to, in order. *)
Definition reads_of (log : list event) : list path :=
  flat_map (fun e => match e with EvRead p => [p] | _ => [] end) log.

Definition prints_of (log : list event) : list string :=
  flat_map (fun e => match e with EvPrint line => [line] | _ => [] end) log.

Definition writes_of (log : list event) : list path :=
  flat_map (fun e => match e with EvWrite p _ => [p] | _ => [] end) log.

(** The second chunk of a candidate, from what reading it gives. *)
Definition second_chunk (filename : name) (r : read_result)
  : option string :=
  match r with
  | Text contenuto => Some (contenuto ++ nl)
  | Error e => Some (annotation filename (text_of_message e))
  | Blocks => None
  end.


(** The loops get to candidate number [i] and write its header: the
    candidates before it let the run go on, and its own name can be
    encoded. *)
Definition reached (fs0 : node) (cands : list (path * name)) (i : nat)
  : bool :=
  forallb (passes fs0) (firstn i cands) &&
  match nth_error cands i with
  | Some c => valid_utf8 (snd c)
  | None => false
  end.

Fixpoint has_cr (s : string) : bool :=
  match s with
  | EmptyString => false
  | String c s' => Ascii.eqb c CR || has_cr s'
  end.

(** ** File systems to try the program on *)

Definition crlf : string := String CR (String LF "").

(** A name the operating system holds in Latin-1, [caf\xe9.js]: the
    byte [0xE9] is not followed by the bytes UTF-8 wants after it. *)
Definition latin1_js : name := "caf" ++ String (ascii_of_nat 233) ".js".

Definition proj_demo : node :=
  Dir false true
    [("a.js", File None "let x=1;");
     ("lib.js",
      Dir false true [("i.js", File (Some permission_denied) "secret")]);
     ("sub",
      Dir false true
        [("a.js", File None "let y=2;");
         ("bad.js", File None (String (ascii_of_nat 255) "x"));
         ("dos.js", File None ("a" ++ crlf ++ "b"))]);
     ("c.txt", File None "notes")].

Definition fs_demo : node := Dir false true [("proj", proj_demo)].

(** [fs_demo] once [out.txt] is opened for writing. *)
Definition fs_demo_opened : node :=
  Dir false true [("proj", proj_demo); ("out.txt", File None "")].

(** A file that may not be read, then one whose name cannot be encoded. *)
Definition fs_latin1 : node :=
  Dir false true
    [("proj",
      Dir false true
        [("x.js", File (Some permission_denied) "secret");
         (latin1_js, File None "y");
         ("z.js", File None "z")])].

(** A link to a directory and a directory that cannot be listed; a
    FIFO. *)
Definition proj_links : node :=
  Dir false true
    [("real", Dir false true [("a.js", File None "a")]);
     ("link", Dir true true [("b.js", File None "b")]);
     ("locked", Dir false false [("c.js", File None "c")]);
     ("d.js", File None "d")].

Definition pipes_demo : node :=
  Dir false true
    [("a.js", File None "a"); ("p.js", Fifo); ("z.js", File None "z")].

Definition fs_links : node :=
  Dir false true [("proj", proj_links); ("pipes", pipes_demo)].

(** [fs_links] once [out.txt] is opened for writing. *)
Definition fs_links_opened : node :=
  Dir false true
    [("proj", proj_links); ("pipes", pipes_demo);
     ("out.txt", File None "")].

(** [fs_latin1] once [out.txt] is opened for writing. *)
Definition fs_latin1_opened : node :=
  Dir false true
    [("proj",
      Dir false true
        [("x.js", File (Some permission_denied) "secret");
         (latin1_js, File None "y");
         ("z.js", File None "z")]);
     ("out.txt", File None "")].

(** Everything written is still in the stream's buffer until it is
    closed, as happens for a small output. *)
Definition all_buffered : list string -> string := fun _ => "".

(** ** The sentences of the specification that the program does not meet *)

(** C1 as the specification words it: the output is made of one block
    for each file of the tree whose name ends in [.js]. *)
Definition one_block_per_matching_file : Prop :=
  forall flushed fs cartella out fs0,
    open_w fs out = Some fs0 ->
    let r := processa_js_files flushed cartella out (start fs) in
    exists blocks,
      w_out (snd r) = flat_map render blocks /\
      List.length blocks = count_all_under is_js fs0 cartella.

(** C2 as the specification words it: the block of every candidate file
    is its header followed by the content of the file and a newline. *)
Definition every_block_holds_the_content : Prop :=
  forall flushed fs cartella out fs0 i root nm deny raw,
    open_w fs out = Some fs0 ->
    nth_error (candidates fs0 cartella) i = Some (root, nm) ->
    os_path_join root nm <> out ->
    lookup fs (os_path_join root nm) = Some (File deny raw) ->
    let chunks :=
      w_out (snd (processa_js_files flushed cartella out (start fs))) in
    nth_error chunks (2 * i) = Some ("//" ++ nm ++ nl) /\
    nth_error chunks (2 * i + 1) = Some (raw ++ nl).

(** C3 as the specification words it: when a candidate file cannot be
    read, its block holds the comment about the error, the run ends
    normally, and every candidate has its header in the output. *)
Definition an_unreadable_file_never_stops_the_run : Prop :=
  forall flushed fs cartella out fs0 i root nm e,
    open_w fs out = Some fs0 ->
    nth_error (candidates fs0 cartella) i = Some (root, nm) ->
    os_path_join root nm <> out ->
    read_path fs (os_path_join root nm) = Error e ->
    let r := processa_js_files flushed cartella out (start fs) in
    fst r = inr tt /\
    nth_error (w_out (snd r)) (2 * i + 1) =
      Some ("// Impossibile leggere " ++ nm ++ ": "
            ++ text_of_message e ++ nl) /\
    (forall j root' nm',
        nth_error (candidates fs0 cartella) j = Some (root', nm') ->
        nth_error (w_out (snd r)) (2 * j) = Some ("//" ++ nm' ++ nl)).

(** C4 as the specification words it: for a candidate file that can be
    read, the second chunk is the bytes of the file followed by a
    newline. *)
Definition the_content_is_the_raw_text : Prop :=
  forall flushed fs cartella out fs0 i root nm raw contenuto,
    open_w fs out = Some fs0 ->
    nth_error (candidates fs0 cartella) i = Some (root, nm) ->
    os_path_join root nm <> out ->
    content_at fs (os_path_join root nm) = Some raw ->
    read_path fs (os_path_join root nm) = Text contenuto ->
    let chunks :=
      w_out (snd (processa_js_files flushed cartella out (start fs))) in
    nth_error chunks (2 * i + 1) = Some (raw ++ nl).


(** C9 as the specification words it: every entry below the input
    directory whose name ends in [.js], of whatever kind, has a block in
    the output. *)
Definition every_entry_gets_a_block : Prop :=
  forall flushed fs cartella out fs0 rel nm n,
    open_w fs out = Some fs0 ->
    lookup fs0 (cartella ++ rel ++ [nm])%list = Some n ->
    endswith nm ".js" = true ->
    In ("//" ++ nm ++ nl)
       (w_out (snd (processa_js_files flushed cartella out (start fs)))).

(** * Lemmas *)

(** ** [endswith] *)

Lemma substring_all s : substring 0 (String.length s) s = s.
Proof. induction s as [|a s IH]; simpl; [reflexivity|]. now rewrite IH. Qed.

Lemma substring_after pre : forall s,
  substring (String.length pre) (String.length s) (pre ++ s) = s.
Proof.
  induction pre as [|a pre IH]; intros s; simpl;
    [apply substring_all|apply IH].
Qed.

Lemma length_append (a b : string) :
  String.length (a ++ b) = String.length a + String.length b.
Proof. induction a as [|x a IH]; simpl; [reflexivity|]. now rewrite IH. Qed.

Lemma substring_split n : forall s,
  n <= String.length s ->
  s = substring 0 n s ++ substring n (String.length s - n) s.
Proof.
  induction n as [|n IH]; intros s L.
  - rewrite Nat.sub_0_r, substring_all. now destruct s.
  - destruct s as [|a s]; simpl in *; [lia|].
    f_equal. apply IH. lia.
Qed.

(** [endswith] holds exactly of the strings that are some prefix followed
    by the suffix. *)
Lemma endswith_iff s suffix :
  endswith s suffix = true <-> exists pre, s = pre ++ suffix.
Proof.
  unfold endswith. rewrite andb_true_iff, Nat.leb_le, String.eqb_eq. split.
  - intros [L E].
    set (n := String.length s - String.length suffix) in *.
    exists (substring 0 n s).
    transitivity (substring 0 n s ++ substring n (String.length s - n) s);
      [apply substring_split; lia|].
    f_equal. replace (String.length s - n) with (String.length suffix)
      by lia.
    exact E.
  - intros [pre ->]. rewrite length_append. split; [lia|].
    replace (String.length pre + String.length suffix
             - String.length suffix) with (String.length pre) by lia.
    apply substring_after.
Qed.

Example endswith_examples :
  endswith "a.js" ".js" = true /\ endswith ".js" ".js" = true /\
  endswith "js" ".js" = false /\ endswith "a.jsx" ".js" = false /\
  endswith "A.JS" ".js" = false.
Proof. repeat split. Qed.

(** ** UTF-8 *)

Ltac split_conditions :=
  repeat match goal with
         | |- context [if ?c then _ else _] =>
             let E := fresh "E" in destruct c eqn:E
         end.

Lemma start_byte_ranges b p : start_byte b = Some p -> tail_ranges p.
Proof.
  unfold start_byte. split_conditions; intros [= <-];
    repeat constructor; simpl; lia.
Qed.

(** A first byte is not a continuation byte. *)
Lemma start_byte_not_tail b p : start_byte b = Some p -> b < 128 \/ 191 < b.
Proof.
  unfold start_byte. split_conditions; intros H; try discriminate H;
    repeat match goal with
           | E : (_ && _)%bool = true |- _ =>
               apply andb_true_iff in E; destruct E
           | E : Nat.leb _ _ = true |- _ => apply Nat.leb_le in E
           | E : Nat.eqb _ _ = true |- _ => apply Nat.eqb_eq in E
           end; lia.
Qed.

Lemma utf8_step_ranges p b q :
  tail_ranges p -> utf8_step p b = Some q -> tail_ranges q.
Proof.
  destruct p as [|[lo hi] rest]; simpl.
  - intros _. apply start_byte_ranges.
  - intros T. destruct (Nat.leb lo b && Nat.leb b hi); [|discriminate].
    intros [= <-]. now inversion T.
Qed.

Lemma utf8_run_ranges s : forall p q,
  tail_ranges p -> utf8_run p s = Some q -> tail_ranges q.
Proof.
  induction s as [|c s IH]; simpl; intros p q T.
  - now intros [= <-].
  - destruct (utf8_step p (nat_of_ascii c)) as [p'|] eqn:E; [|discriminate].
    apply IH. eapply utf8_step_ranges; eassumption.
Qed.

Lemma utf8_run_app a : forall p b,
  utf8_run p (a ++ b) =
  match utf8_run p a with
  | Some q => utf8_run q b
  | None => None
  end.
Proof.
  induction a as [|c a IH]; simpl; intros p b; [reflexivity|].
  destruct (utf8_step p (nat_of_ascii c)); [apply IH|reflexivity].
Qed.

(** Valid text followed by any bytes is as valid as these bytes. *)
Lemma valid_utf8_app_l a b :
  valid_utf8 a = true -> valid_utf8 (a ++ b) = valid_utf8 b.
Proof.
  unfold valid_utf8. rewrite utf8_run_app.
  destruct (utf8_run [] a) as [[|r q]|]; try discriminate. reflexivity.
Qed.

(** Any bytes followed by valid text are as valid as these bytes: a
    character cut short is not completed by the start of another. *)
Lemma valid_utf8_app_r a b :
  valid_utf8 b = true -> valid_utf8 (a ++ b) = valid_utf8 a.
Proof.
  unfold valid_utf8. rewrite utf8_run_app. intros B.
  destruct (utf8_run [] a) as [[|[lo hi] q]|] eqn:A; [assumption| |reflexivity].
  assert (T : tail_ranges ((lo, hi) :: q)).
  { eapply utf8_run_ranges; [constructor|eassumption]. }
  destruct b as [|c b]; [reflexivity|]. simpl in *.
  destruct (start_byte (nat_of_ascii c)) as [p|] eqn:S; [|discriminate B].
  apply start_byte_not_tail in S. inversion T as [|r l [L H] _]. simpl in *.
  destruct (Nat.leb lo (nat_of_ascii c) && Nat.leb (nat_of_ascii c) hi)
    eqn:C; [|reflexivity].
  apply andb_true_iff in C. destruct C as [C1 C2].
  apply Nat.leb_le in C1, C2. lia.
Qed.

Lemma valid_utf8_app a b :
  valid_utf8 a = true -> valid_utf8 b = true -> valid_utf8 (a ++ b) = true.
Proof. intros A B. now rewrite valid_utf8_app_l. Qed.

Lemma utf8_run_universal_newlines n : forall s p,
  String.length s <= n -> tail_ranges p ->
  utf8_run p s = Some [] -> utf8_run p (universal_newlines s) = Some [].
Proof.
  induction n as [|n IH]; intros [|c s] p L T R; simpl in *;
    try assumption; try lia.
  destruct (Ascii.eqb c CR) eqn:E.
  - apply Ascii.eqb_eq in E. subst c.
    destruct p as [|[lo hi] q].
    + simpl in R |- *.
      destruct s as [|c' s']; [reflexivity|].
      destruct (Ascii.eqb c' LF) eqn:F.
      * apply Ascii.eqb_eq in F. subst c'. simpl in R.
        apply IH; [simpl in L; lia|constructor|assumption].
      * apply IH; [lia|constructor|assumption].
    + exfalso. inversion T as [|r l [Lo Hi] _]. simpl in *.
      change (nat_of_ascii CR) with 13 in R.
      destruct (Nat.leb lo 13) eqn:C; [|discriminate R].
      apply Nat.leb_le in C. lia.
  - simpl.
    destruct (utf8_step p (nat_of_ascii c)) as [p'|] eqn:S; [|discriminate R].
    apply IH; [lia| |assumption].
    eapply utf8_step_ranges; eassumption.
Qed.

(** Translating the line ends of valid text gives valid text. *)
Lemma valid_universal_newlines s :
  valid_utf8 s = true -> valid_utf8 (universal_newlines s) = true.
Proof.
  unfold valid_utf8. intros V.
  destruct (utf8_run [] s) as [[|r q]|] eqn:R; try discriminate V.
  now rewrite (utf8_run_universal_newlines (String.length s) s []
                 (le_n _) (Forall_nil _) R).
Qed.

(** The header of a file can be encoded exactly when its name can. *)
Lemma valid_header filename :
  valid_utf8 (header filename) = valid_utf8 filename.
Proof.
  unfold header. rewrite valid_utf8_app_l by reflexivity.
  now apply valid_utf8_app_r.
Qed.

Lemma valid_content contenuto :
  valid_utf8 contenuto = true -> valid_utf8 (contenuto ++ nl) = true.
Proof. intros V. now apply valid_utf8_app. Qed.

Lemma valid_annotation filename e :
  valid_utf8 filename = true -> valid_utf8 e = true ->
  valid_utf8 (annotation filename e) = true.
Proof.
  intros N E. unfold annotation.
  repeat (apply valid_utf8_app; try assumption; try reflexivity).
Qed.

(** What a read returns can always be written back. *)
Lemma decode_valid raw contenuto :
  decode raw = Text contenuto -> valid_utf8 contenuto = true.
Proof.
  unfold decode. destruct (valid_utf8 raw) eqn:V; [|discriminate].
  intros [= <-]. now apply valid_universal_newlines.
Qed.

Lemma read_node_valid n contenuto :
  read_node n = Text contenuto -> valid_utf8 contenuto = true.
Proof.
  destruct n as [[[e|] raw| |l r es]|]; simpl; try discriminate.
  apply decode_valid.
Qed.

(** ** Lemmas on directories *)

Lemma assoc_replace_same x c es :
  assoc x es <> None -> assoc x (replace x c es) = Some c.
Proof.
  induction es as [|[y d] es IH]; simpl; [congruence|].
  destruct (String.eqb x y) eqn:E; simpl; rewrite E; auto.
Qed.

Lemma assoc_replace_other x y c es :
  x <> y -> assoc y (replace x c es) = assoc y es.
Proof.
  intros N. induction es as [|[z d] es IH]; simpl; [reflexivity|].
  destruct (String.eqb x z) eqn:E; simpl.
  - apply String.eqb_eq in E. subst z.
    destruct (String.eqb y x) eqn:F; [|reflexivity].
    apply String.eqb_eq in F. congruence.
  - rewrite IH. reflexivity.
Qed.

Lemma replace_replace x c c' es :
  replace x c' (replace x c es) = replace x c' es.
Proof.
  induction es as [|[y d] es IH]; simpl; [reflexivity|].
  destruct (String.eqb x y) eqn:E; simpl; rewrite E; [reflexivity|].
  now rewrite IH.
Qed.

Lemma replace_assoc x c es :
  assoc x es = Some c -> replace x c es = es.
Proof.
  induction es as [|[y d] es IH]; simpl; [reflexivity|].
  destruct (String.eqb x y) eqn:E.
  - intros [= ->]. reflexivity.
  - intros H. now rewrite IH.
Qed.

Lemma assoc_app_new x y c es :
  assoc x es = None ->
  assoc y (es ++ [(x, c)]) = if String.eqb y x then Some c else assoc y es.
Proof.
  induction es as [|[z d] es IH]; simpl.
  - intros _. reflexivity.
  - destruct (String.eqb x z) eqn:E; [discriminate|]. intros H.
    destruct (String.eqb y z) eqn:F.
    + apply String.eqb_eq in F. subst z.
      rewrite String.eqb_sym in E. now rewrite E.
    + now apply IH.
Qed.

Lemma replace_app_new x c c' es :
  assoc x es = None ->
  replace x c' (es ++ [(x, c)]) = (es ++ [(x, c')])%list.
Proof.
  induction es as [|[z d] es IH]; simpl.
  - intros _. now rewrite String.eqb_refl.
  - destruct (String.eqb x z) eqn:E; [discriminate|]. intros H.
    now rewrite IH.
Qed.

Lemma assoc_In x c es : assoc x es = Some c -> In (x, c) es.
Proof.
  induction es as [|[y d] es IH]; simpl; [discriminate|].
  destruct (String.eqb x y) eqn:E.
  - apply String.eqb_eq in E. subst y. intros [= ->]. now left.
  - intros H. right. now apply IH.
Qed.

(** ** Lemmas on [put_raw] *)

Lemma is_dir_put_raw n q t : is_dir (put_raw n q t) = is_dir n.
Proof.
  destruct q as [|y q], n as [d t0| |l r es]; simpl; try reflexivity.
  now destruct (assoc y es).
Qed.

Lemma entered_put_raw n q t : entered (put_raw n q t) = entered n.
Proof.
  destruct q as [|y q], n as [d t0| |l r es]; simpl; try reflexivity.
  now destruct (assoc y es).
Qed.

Lemma put_raw_cons l r es x p t :
  put_raw (Dir l r es) (x :: p) t =
  match assoc x es with
  | Some c => Dir l r (replace x (put_raw c p t) es)
  | None => Dir l r es
  end.
Proof. reflexivity. Qed.

Lemma put_raw_put_raw p : forall n t t',
  put_raw (put_raw n p t) p t' = put_raw n p t'.
Proof.
  induction p as [|x p IH]; intros [d t0| |l r es] t t'; simpl;
    try reflexivity.
  destruct (assoc x es) as [c|] eqn:E; simpl.
  - rewrite assoc_replace_same by congruence.
    now rewrite IH, replace_replace.
  - now rewrite E.
Qed.

Lemma lookup_put_raw_same p : forall n d t0 t,
  lookup n p = Some (File d t0) ->
  lookup (put_raw n p t) p = Some (File d t).
Proof.
  induction p as [|x p IH]; intros [d' t1| |l r es] d t0 t; simpl;
    try discriminate.
  - now intros [= -> _].
  - destruct (assoc x es) as [c|] eqn:E; [|discriminate].
    intros H. simpl. rewrite assoc_replace_same by congruence. eauto.
Qed.

(** Whatever is read off a node without looking at the bytes of files is
    the same before and after [put_raw]. *)
Lemma lookup_put_raw_rel (R : option node -> option node -> Prop) :
  (forall o, R o o) ->
  (forall m q t, R (Some (put_raw m q t)) (Some m)) ->
  forall p n q t, R (lookup (put_raw n q t) p) (lookup n p).
Proof.
  intros Rrefl Rput. induction p as [|x p IH]; intros n q t.
  - simpl. apply Rput.
  - destruct q as [|y q], n as [d t0| |l r es]; simpl; try apply Rrefl.
    destruct (assoc y es) as [c|] eqn:E; simpl; [|apply Rrefl].
    destruct (String.eqb x y) eqn:F.
    + apply String.eqb_eq in F. subst y.
      rewrite assoc_replace_same, E by congruence. apply IH.
    + rewrite assoc_replace_other; [apply Rrefl|].
      intros ->. now rewrite String.eqb_refl in F.
Qed.

Lemma isdir_put_raw fs q t p : isdir (put_raw fs q t) p = isdir fs p.
Proof.
  unfold isdir.
  apply (lookup_put_raw_rel
           (fun a b => match a with Some n => is_dir n | None => false end
                     = match b with Some n => is_dir n | None => false end)).
  - reflexivity.
  - intros. apply is_dir_put_raw.
Qed.

(** A FIFO stays one and nothing becomes one. *)
Lemma returns_put_raw fs q t p : returns (put_raw fs q t) p = returns fs p.
Proof.
  unfold returns.
  apply (lookup_put_raw_rel
           (fun a b => match a with Some Fifo => false | _ => true end
                     = match b with Some Fifo => false | _ => true end)).
  - reflexivity.
  - intros m q' t'. destruct q' as [|y q'], m as [d t0| |l r es]; simpl;
      try reflexivity.
    now destruct (assoc y es).
Qed.

(** Reading any other path is not affected. *)
Lemma read_node_put_raw_other p : forall n q t,
  p <> q ->
  read_node (lookup (put_raw n q t) p) = read_node (lookup n p).
Proof.
  induction p as [|x p IH]; intros n q t N.
  - destruct q as [|y q]; [congruence|].
    destruct n as [d t0| |l r es]; simpl; try reflexivity.
    now destruct (assoc y es).
  - destruct q as [|y q], n as [d t0| |l r es]; simpl; try reflexivity.
    destruct (assoc y es) as [c|] eqn:E; simpl; [|reflexivity].
    destruct (String.eqb x y) eqn:F.
    + apply String.eqb_eq in F. subst y.
      rewrite assoc_replace_same, E by congruence. apply IH. congruence.
    + rewrite assoc_replace_other; [reflexivity|].
      intros ->. now rewrite String.eqb_refl in F.
Qed.

Lemma read_path_put_raw_other fs q t p :
  p <> q -> read_path (put_raw fs q t) p = read_path fs p.
Proof. apply read_node_put_raw_other. Qed.

Lemma put_raw_same p : forall n d t,
  lookup n p = Some (File d t) -> put_raw n p t = n.
Proof.
  induction p as [|x p IH]; intros [d' t'| |l r es] d t; simpl;
    try discriminate.
  - now intros [= -> ->].
  - destruct (assoc x es) as [c|] eqn:E; [|discriminate].
    intros H. rewrite (IH _ _ _ H). now rewrite replace_assoc.
Qed.

(** *** The walk only looks at the shape of the tree *)

Lemma walk_node_Dir top l es :
  walk_node top (Dir l true es) =
  (top, dirnames es, filenames es) ::
  flat_map (fun e => if entered (snd e)
                     then walk_node (top ++ [fst e])%list (snd e)
                     else []) es.
Proof.
  simpl. f_equal.
  induction es as [|[x c] es IH]; simpl; [reflexivity|]. now rewrite IH.
Qed.

Lemma dirnames_replace x c c' es :
  assoc x es = Some c -> is_dir c' = is_dir c ->
  dirnames (replace x c' es) = dirnames es.
Proof.
  unfold dirnames. induction es as [|[y d] es IH]; simpl; [reflexivity|].
  destruct (String.eqb x y) eqn:E.
  - intros [= ->] H. simpl. rewrite H. now destruct (is_dir c).
  - intros H1 H2. simpl. destruct (is_dir d); simpl; now rewrite IH.
Qed.

Lemma filenames_replace x c c' es :
  assoc x es = Some c -> is_dir c' = is_dir c ->
  filenames (replace x c' es) = filenames es.
Proof.
  unfold filenames. induction es as [|[y d] es IH]; simpl; [reflexivity|].
  destruct (String.eqb x y) eqn:E.
  - intros [= ->] H. simpl. rewrite H. now destruct (is_dir c).
  - intros H1 H2. simpl. destruct (is_dir d); simpl; now rewrite IH.
Qed.

Lemma walk_node_put_raw p : forall n t top,
  walk_node top (put_raw n p t) = walk_node top n.
Proof.
  induction p as [|x p IH]; intros [d t0| |l r es] t top; try reflexivity.
  rewrite put_raw_cons. destruct (assoc x es) as [c|] eqn:E; [|reflexivity].
  destruct r; [|reflexivity].
  rewrite !walk_node_Dir.
  rewrite dirnames_replace with (c := c), filenames_replace with (c := c)
    by (assumption || apply is_dir_put_raw).
  f_equal. revert E.
  induction es as [|[y d] es IHes]; simpl; [reflexivity|].
  destruct (String.eqb x y) eqn:F.
  - intros [= ->]. simpl. now rewrite entered_put_raw, IH.
  - intros H. simpl. now rewrite IHes.
Qed.

Lemma os_walk_put_raw fs q t top :
  os_walk (put_raw fs q t) top = os_walk fs top.
Proof.
  unfold os_walk.
  apply (lookup_put_raw_rel
           (fun a b => match a with Some n => walk_node top n | None => [] end
                     = match b with Some n => walk_node top n | None => [] end)).
  - reflexivity.
  - intros. apply walk_node_put_raw.
Qed.

(** ** Lemmas on [open_w] *)

Lemma open_w_inv n q fs0 :
  open_w n q = Some fs0 -> exists x p, q = x :: p /\ opened x p n fs0.
Proof.
  destruct n as [d t| |l r es], q as [|x p]; simpl; try discriminate.
  intros H. exists x, p. split; [reflexivity|].
  destruct p as [|y p].
  - destruct (assoc x es) as [[d t| |l' r' es']|] eqn:E; try discriminate.
    + injection H as <-. eapply opened_truncate; eauto.
    + injection H as <-. eapply opened_create; eauto.
  - destruct (assoc x es) as [c|] eqn:E; [|discriminate].
    destruct (open_w c (y :: p)) as [c'|] eqn:O; [|discriminate].
    injection H as <-. eapply opened_below; eauto. discriminate.
Qed.

Ltac open_cases H :=
  let x := fresh "x" in
  let p := fresh "p" in
  let E := fresh "E" in
  apply open_w_inv in H; destruct H as (x & p & E & H);
  destruct H as [l r es d t0 -> -> A ->|l r es -> -> A ->
                |l r es c c' N -> A O ->].

Lemma open_w_lookup q : forall fs fs0,
  open_w fs q = Some fs0 ->
  exists d, lookup fs0 q = Some (File d "").
Proof.
  induction q as [|y q IH]; intros fs fs0 H; open_cases H;
    try discriminate; injection E as -> ->; simpl.
  - exists d. now rewrite assoc_replace_same by congruence.
  - exists None. now rewrite assoc_app_new, String.eqb_refl.
  - rewrite assoc_replace_same by congruence. eauto.
Qed.

(** What is opened for writing was a file, or was not there. *)
Lemma open_w_not_fifo q : forall fs fs0,
  open_w fs q = Some fs0 -> lookup fs q <> Some Fifo.
Proof.
  induction q as [|y q IH]; intros fs fs0 H; open_cases H;
    try discriminate; injection E as -> ->; simpl; rewrite A;
    try discriminate.
  eapply IH; eassumption.
Qed.

Lemma open_for_writing_opened fs q fs0 :
  open_w fs q = Some fs0 -> open_for_writing fs q = Opened fs0.
Proof.
  intros H. unfold open_for_writing. rewrite H.
  pose proof (open_w_not_fifo q fs fs0 H) as N.
  destruct (lookup fs q) as [[d t| |l r es]|]; try reflexivity.
  now elim N.
Qed.

Lemma open_for_writing_inv fs q fs0 :
  open_for_writing fs q = Opened fs0 -> open_w fs q = Some fs0.
Proof.
  unfold open_for_writing.
  destruct (lookup fs q) as [[d t| |l r es]|];
    destruct (open_w fs q); congruence.
Qed.

Lemma put_raw_open_w fs q fs0 :
  open_w fs q = Some fs0 -> put_raw fs0 q "" = fs0.
Proof.
  intros H. destruct (open_w_lookup _ _ _ H) as [d L].
  now apply put_raw_same with (d := d).
Qed.

Lemma open_w_below l r es x y p :
  open_w (Dir l r es) (x :: y :: p) =
  match assoc x es with
  | Some c => match open_w c (y :: p) with
              | Some c' => Some (Dir l r (replace x c' es))
              | None => None
              end
  | None => None
  end.
Proof. reflexivity. Qed.

(** Opening again truncates to the same file system, whatever was
    written in between. *)
Lemma open_w_put_raw q : forall fs fs0 t,
  open_w fs q = Some fs0 -> open_w (put_raw fs0 q t) q = Some fs0.
Proof.
  induction q as [|y q IH]; intros fs fs0 t H; open_cases H;
    try discriminate; injection E as -> ->;
    try (assert (A' : assoc x (replace x c' es) = Some c')
           by (apply assoc_replace_same; congruence)).
  - simpl put_raw. rewrite assoc_replace_same by congruence.
    simpl put_raw. rewrite replace_replace.
    simpl open_w. rewrite assoc_replace_same by congruence.
    now rewrite replace_replace.
  - simpl put_raw. rewrite assoc_app_new, String.eqb_refl by assumption.
    simpl put_raw. rewrite replace_app_new by assumption.
    simpl open_w. rewrite assoc_app_new, String.eqb_refl by assumption.
    now rewrite replace_app_new.
  - destruct p as [|z q]; [congruence|].
    rewrite put_raw_cons, A'. rewrite open_w_below.
    rewrite assoc_replace_same by (rewrite A'; discriminate).
    rewrite (IH _ _ _ O). now rewrite !replace_replace.
Qed.

(** Opening for writing does not look at the bytes the file holds. *)
Lemma open_w_after_put_raw q : forall n t,
  open_w (put_raw n q t) q = open_w n q.
Proof.
  induction q as [|x q IH]; intros n t.
  - destruct n; reflexivity.
  - destruct n as [d t0| |l r es]; try reflexivity.
    rewrite put_raw_cons.
    destruct (assoc x es) as [c|] eqn:A; [|reflexivity].
    assert (A' : assoc x (replace x (put_raw c q t) es)
                 = Some (put_raw c q t))
      by (apply assoc_replace_same; congruence).
    destruct q as [|y q].
    + destruct c as [d t0| |l' r' es']; simpl put_raw in *.
      * simpl open_w. rewrite A', A. now rewrite replace_replace.
      * now rewrite (replace_assoc _ _ _ A).
      * now rewrite (replace_assoc _ _ _ A).
    + rewrite !open_w_below, A', A, IH.
      destruct (open_w c (y :: q)) as [c'|]; [|reflexivity].
      now rewrite replace_replace.
Qed.

Ltac same_name z x :=
  let F := fresh "F" in
  destruct (String.eqb z x) eqn:F;
  [apply String.eqb_eq in F; subst z
  |assert (x <> z) by (intros ->; now rewrite String.eqb_refl in F)].

(** Opening the output changes no answer about any other path, and
    turns no path into a directory. *)
Lemma lookup_open_w_rel (R : option node -> option node -> Prop) :
  (forall o, R o o) ->
  (forall l r es es', R (Some (Dir l r es)) (Some (Dir l r es'))) ->
  forall q fs fs0 p,
    open_w fs q = Some fs0 ->
    (p = q ->
     (forall d t t', R (Some (File d t)) (Some (File d t'))) /\
     (forall d t, R (Some (File d t)) None)) ->
    R (lookup fs0 p) (lookup fs p).
Proof.
  intros Rrefl Rdir.
  induction q as [|y q IH]; intros fs fs0 p H Hsame; open_cases H;
    try discriminate; injection E as -> ->;
    (destruct p as [|z p]; [apply Rdir|]); simpl; same_name z x.
  - rewrite assoc_replace_same, A by congruence.
    destruct p as [|z p]; simpl; [now apply Hsame|apply Rrefl].
  - rewrite assoc_replace_other by assumption. apply Rrefl.
  - rewrite assoc_app_new, String.eqb_refl, A by assumption.
    destruct p as [|z p]; simpl; [now apply Hsame|apply Rrefl].
  - rewrite assoc_app_new, F by assumption. apply Rrefl.
  - rewrite assoc_replace_same, A by congruence.
    apply (IH _ _ _ O). intros ->. now apply Hsame.
  - rewrite assoc_replace_other by assumption. apply Rrefl.
Qed.

Lemma isdir_open_w fs q fs0 p :
  open_w fs q = Some fs0 -> isdir fs0 p = isdir fs p.
Proof.
  intros H. unfold isdir.
  apply (lookup_open_w_rel
           (fun a b => match a with Some n => is_dir n | None => false end
                     = match b with Some n => is_dir n | None => false end))
    with (q := q); auto.
Qed.

Lemma read_path_open_w_other fs q fs0 p :
  open_w fs q = Some fs0 -> p <> q -> read_path fs0 p = read_path fs p.
Proof.
  intros H N. unfold read_path.
  apply (lookup_open_w_rel
           (fun a b => read_node a = read_node b)) with (q := q);
    auto; congruence.
Qed.

(** A directory that does not hold the output path is left as it was. *)
Lemma lookup_open_w_outside q : forall fs fs0 p,
  open_w fs q = Some fs0 -> is_prefix p q = false ->
  lookup fs0 p = lookup fs p.
Proof.
  induction q as [|y q IH]; intros fs fs0 p H Hp; open_cases H;
    try discriminate; injection E as -> ->;
    (destruct p as [|z p]; [discriminate|]); simpl in *; same_name z x;
    simpl in Hp.
  - rewrite assoc_replace_same, A by congruence.
    destruct p; [discriminate|reflexivity].
  - now rewrite assoc_replace_other.
  - rewrite assoc_app_new, String.eqb_refl, A by assumption.
    destruct p; [discriminate|reflexivity].
  - now rewrite assoc_app_new, F.
  - rewrite assoc_replace_same, A by congruence. now apply (IH _ _ _ O).
  - now rewrite assoc_replace_other.
Qed.

(** ** Lemmas on the walk *)

Lemma count_files_Dir P l es :
  count_files P (Dir l true es) = list_sum (map (count_entry P) es).
Proof.
  simpl. induction es as [|[x c] es IH]; simpl; [reflexivity|].
  rewrite IH. unfold count_entry. simpl.
  destruct c as [d t| |[|] r es']; reflexivity.
Qed.

Lemma candidates_of_app a b :
  candidates_of (a ++ b) = (candidates_of a ++ candidates_of b)%list.
Proof. apply flat_map_app. Qed.

Lemma candidates_of_cons root dirs files rest :
  candidates_of ((root, dirs, files) :: rest) =
  (map (pair root) (filter is_js files) ++ candidates_of rest)%list.
Proof. reflexivity. Qed.

(** One candidate for each entry the walk lists that is not a directory
    and has a matching name. *)
Lemma length_candidates_walk_node n : forall top,
  List.length (candidates_of (walk_node top n)) = count_files is_js n.
Proof.
  induction n as [d t| |l r es IH] using node_induction; intros top;
    try reflexivity.
  destruct r; [|reflexivity].
  rewrite walk_node_Dir, candidates_of_cons, count_files_Dir.
  rewrite length_app, length_map.
  induction IH as [|[x c] es Hc _ IHes]; [reflexivity|].
  simpl flat_map. rewrite candidates_of_app, length_app.
  change (list_sum (map (count_entry is_js) ((x, c) :: es)))
    with (count_entry is_js (x, c) + list_sum (map (count_entry is_js) es)).
  rewrite <- IHes. simpl in Hc.
  unfold count_entry, filenames. cbn [fst snd filter].
  destruct c as [d t| |[|] r' es'];
    cbn [entered is_dir negb map filter fst];
    try rewrite Hc; try (destruct (is_js x));
    cbn [List.length candidates_of flat_map]; lia.
Qed.

Lemma length_candidates fs0 cartella :
  List.length (candidates fs0 cartella) = count_under is_js fs0 cartella.
Proof.
  unfold candidates, os_walk, count_under.
  destruct (lookup fs0 cartella) as [n|]; [|reflexivity].
  apply length_candidates_walk_node.
Qed.

Lemma candidates_of_js triples :
  Forall (fun c => is_js (snd c) = true) (candidates_of triples).
Proof.
  apply Forall_forall. intros [root nm] H.
  apply in_flat_map in H. destruct H as ([[r ds] fs] & _ & H).
  apply in_map_iff in H. destruct H as (f & [= <- <-] & H).
  now apply filter_In in H.
Qed.

Lemma assoc_file_filenames x es c :
  assoc x es = Some c -> is_dir c = false -> In x (filenames es).
Proof.
  intros H D. apply assoc_In in H. unfold filenames.
  apply in_map_iff. exists (x, c). split; [reflexivity|].
  apply filter_In. split; [assumption|]. simpl. now rewrite D.
Qed.

Lemma candidates_of_In_flat_map (A : Type) f (e : A) es c :
  In e es -> In c (candidates_of (f e)) ->
  In c (candidates_of (flat_map f es)).
Proof.
  intros He Hc. induction es as [|a es IH]; simpl in *; [contradiction|].
  rewrite candidates_of_app. apply in_or_app.
  destruct He as [->|He]; [now left|right; auto].
Qed.

(** Every entry of a directory the walk reaches that is not a directory
    and has a matching name is a candidate, at any depth. *)
Lemma candidates_walk_node_reached rel : forall n top es nm c,
  walked n rel = Some es -> assoc nm es = Some c -> is_dir c = false ->
  is_js nm = true ->
  In ((top ++ rel)%list, nm) (candidates_of (walk_node top n)).
Proof.
  induction rel as [|x rel IH]; intros [d' t'| |l [|] es0] top es nm c W A D J;
    simpl in W; try discriminate.
  - injection W as ->. rewrite walk_node_Dir, candidates_of_cons.
    apply in_or_app. left. rewrite app_nil_r.
    apply in_map, filter_In. split; [|assumption].
    eapply assoc_file_filenames; eassumption.
  - destruct (assoc x es0) as [c0|] eqn:E; [|discriminate].
    destruct (entered c0) eqn:En; [|discriminate].
    rewrite walk_node_Dir, candidates_of_cons. apply in_or_app. right.
    apply candidates_of_In_flat_map with (e := (x, c0));
      [now apply assoc_In|].
    simpl. rewrite En.
    replace (top ++ x :: rel)%list with ((top ++ [x]) ++ rel)%list
      by (now rewrite <- app_assoc).
    eapply IH; eassumption.
Qed.

(** Every directory a walk reports lies at or below its top. *)
Lemma walk_node_below n : forall top t,
  In t (walk_node top n) -> exists rel, fst (fst t) = (top ++ rel)%list.
Proof.
  induction n as [d t0| |l r es IH] using node_induction; intros top t H;
    try contradiction.
  destruct r; [|contradiction].
  rewrite walk_node_Dir in H. destruct H as [<-|H].
  - exists []. now rewrite app_nil_r.
  - apply in_flat_map in H. destruct H as ([x c] & Hin & H).
    rewrite Forall_forall in IH. simpl in H.
    destruct (entered c); [|contradiction].
    destruct (IH _ Hin _ _ H) as [rel ->].
    exists (x :: rel). now rewrite <- app_assoc.
Qed.

Lemma candidates_below fs top c :
  In c (candidates fs top) -> exists rel, fst c = (top ++ rel)%list.
Proof.
  unfold candidates, os_walk, candidates_of. intros H.
  apply in_flat_map in H. destruct H as (t & Ht & H).
  apply in_map_iff in H. destruct H as (f & <- & _). simpl.
  destruct (lookup fs top) as [n|]; [|contradiction].
  eapply walk_node_below; eassumption.
Qed.


(** ** The operations, one at a time *)

Lemma write_valid flushed out s w :
  valid_utf8 s = true ->
  write flushed out s w =
  (inr tt,
   World (put_raw (w_fs w) out (flushed (w_out w ++ [s])%list))
         (w_out w ++ [s]) (w_log w ++ [EvWrite out s])).
Proof. intros V. unfold write. rewrite V. reflexivity. Qed.

Lemma write_invalid flushed out s w :
  valid_utf8 s = false ->
  write flushed out s w =
  (inl (Exception (text_of_message cannot_encode)), w).
Proof. intros V. unfold write. rewrite V. reflexivity. Qed.

Lemma read_text_run p w :
  read_text p w =
  let w' := World (w_fs w) (w_out w) (w_log w ++ [EvRead p]) in
  match read_path (w_fs w) p with
  | Text t => (inr t, w')
  | Error e => (inl (Exception (text_of_message e)), w')
  | Blocks => (inl Blocked, w')
  end.
Proof. reflexivity. Qed.

Lemma chunks_of_app bs1 bs2 e :
  chunks_of ((bs1 ++ bs2)%list, e) =
  (flat_map render bs1 ++ chunks_of (bs2, e))%list.
Proof. unfold chunks_of. simpl. now rewrite flat_map_app, <- app_assoc. Qed.

Lemma events_of_app out bs1 bs2 e :
  events_of out ((bs1 ++ bs2)%list, e) =
  (flat_map (events_of_block out) bs1 ++ events_of out (bs2, e))%list.
Proof. unfold events_of. simpl. now rewrite flat_map_app, <- app_assoc. Qed.

(** ** The loops of [processa_js_files] *)

Section Loops.

Variable flushed : list string -> string.
Variable fs0 : node.
Variable out : path.

Lemma visible_app chunks s rest :
  visible flushed (chunks ++ s :: rest) = flushed (chunks ++ s :: rest)%list.
Proof. now destruct chunks. Qed.

Lemma blocks_from_app l1 : forall l2 chunks,
  blocks_from flushed fs0 out chunks (l1 ++ l2) =
  let r1 := blocks_from flushed fs0 out chunks l1 in
  match snd r1 with
  | Finished =>
      let r2 := blocks_from flushed fs0 out
                  (chunks ++ flat_map render (fst r1)) l2 in
      ((fst r1 ++ fst r2)%list, snd r2)
  | _ => r1
  end.
Proof.
  induction l1 as [|[root nm] l1 IH]; intros l2 chunks.
  - simpl. rewrite app_nil_r.
    now destruct (blocks_from flushed fs0 out chunks l2).
  - cbn [app blocks_from].
    destruct (valid_utf8 (header nm)); [|reflexivity].
    destruct (read_path _ _) as [c|e|]; [| |reflexivity];
      rewrite IH; cbv zeta;
      destruct (blocks_from flushed fs0 out _ l1) as [bs1 [| |r f]];
      cbn [fst snd]; try reflexivity;
      cbn [flat_map render app b_name]; rewrite <- !app_assoc;
      cbn [app];
      now destruct (blocks_from flushed fs0 out _ l2).
Qed.

Lemma runs_ret w :
  tracks flushed fs0 out w -> runs flushed fs0 out (ret tt) w Finished [] [].
Proof.
  destruct w as [fs chunks log]. unfold tracks, runs. simpl.
  intros ->. now rewrite !app_nil_r.
Qed.

Lemma runs_stop m k w e chunks evs :
  e <> Finished ->
  runs flushed fs0 out m w e chunks evs ->
  runs flushed fs0 out (m ;; k) w e chunks evs.
Proof.
  unfold runs, bind. intros N ->. destruct e; [now elim N| |]; reflexivity.
Qed.

Lemma runs_seq m k w c1 v1 e c2 v2 :
  runs flushed fs0 out m w Finished c1 v1 ->
  runs flushed fs0 out k
    (World (put_raw fs0 out (visible flushed (w_out w ++ c1)))
           (w_out w ++ c1) (w_log w ++ v1)) e c2 v2 ->
  runs flushed fs0 out (m ;; k) w e (c1 ++ c2) (v1 ++ v2).
Proof.
  unfold runs, bind. intros -> ->. simpl. now rewrite !app_assoc.
Qed.

Lemma per_file_runs root filename w :
  tracks flushed fs0 out w ->
  let r := blocks_from flushed fs0 out (w_out w)
             (map (pair root) (filter is_js [filename])) in
  runs flushed fs0 out (per_file flushed out root filename) w
       (snd r) (chunks_of r) (events_of out r).
Proof.
  intros T. destruct w as [fs chunks log].
  unfold tracks in T. simpl in T. subst fs.
  unfold per_file, is_js. cbn [filter w_out].
  destruct (endswith filename ".js"); [|now apply runs_ret].
  cbn [map blocks_from]. unfold runs.
  change ("//" ++ filename ++ nl) with (header filename).
  destruct (valid_utf8 (header filename)) eqn:V.
  2:{ unfold bind. rewrite write_invalid by assumption.
      cbn [snd fst chunks_of events_of flat_map last_chunks last_events
           w_out w_log app result_of]. now rewrite !app_nil_r. }
  unfold bind at 1. rewrite write_valid by assumption.
  cbn [w_fs w_out w_log]. rewrite put_raw_put_raw.
  unfold try_except, bind. rewrite read_text_run.
  cbn [w_fs w_out w_log].
  destruct (read_path (put_raw fs0 out (flushed (chunks ++ [header filename])%list))
              (os_path_join root filename)) as [c|e|] eqn:R.
  - assert (Vc : valid_utf8 (c ++ nl) = true)
      by (apply valid_content; eapply read_node_valid; exact R).
    rewrite write_valid by assumption.
    cbn [w_fs w_out w_log snd fst chunks_of events_of flat_map last_chunks
         last_events render events_of_block app result_of body b_seen
         b_name b_path b_dir].
    rewrite put_raw_put_raw, ?app_nil_r, <- ?app_assoc. cbn [app].
    now rewrite visible_app.
  - assert (Ve : valid_utf8 (annotation filename (text_of_message e)) = true).
    { apply valid_annotation; [now rewrite <- valid_header|].
      exact (proj2_sig e). }
    change ("// Impossibile leggere " ++ filename ++ ": "
            ++ text_of_message e ++ nl)
      with (annotation filename (text_of_message e)).
    rewrite write_valid by assumption.
    cbn [w_fs w_out w_log snd fst chunks_of events_of flat_map last_chunks
         last_events render events_of_block app result_of body b_seen
         b_name b_path b_dir].
    rewrite put_raw_put_raw, ?app_nil_r, <- ?app_assoc. cbn [app].
    now rewrite visible_app.
  - cbn [w_fs w_out w_log snd fst chunks_of events_of flat_map last_chunks
         last_events app result_of].
    now rewrite visible_app, <- app_assoc.
Qed.

Lemma for_each_files_runs root files : forall w,
  tracks flushed fs0 out w ->
  let r := blocks_from flushed fs0 out (w_out w)
             (map (pair root) (filter is_js files)) in
  runs flushed fs0 out (for_each files (per_file flushed out root)) w
       (snd r) (chunks_of r) (events_of out r).
Proof.
  induction files as [|f files IH]; intros w T; [now apply runs_ret|].
  pose proof (per_file_runs root f w T) as H1. cbv zeta in H1 |- *.
  change (f :: files) with ([f] ++ files)%list.
  rewrite filter_app, map_app, blocks_from_app. cbv zeta.
  cbn [for_each app].
  destruct (blocks_from flushed fs0 out (w_out w)
              (map (pair root) (filter is_js [f]))) as [bs1 e1].
  cbn [fst snd] in H1 |- *.
  destruct e1 as [| |r1 f1]; [|now apply runs_stop|now apply runs_stop].
  unfold chunks_of, events_of in H1. cbn [fst snd last_chunks last_events] in H1.
  rewrite !app_nil_r in H1.
  rewrite chunks_of_app, events_of_app.
  eapply runs_seq; [exact H1|].
  match goal with |- runs _ _ _ _ ?w1 _ _ _ =>
    specialize (IH w1 eq_refl) end.
  cbv zeta in IH. cbn [w_out] in IH.
  destruct (blocks_from flushed fs0 out _ (map (pair root) (filter is_js files))).
  exact IH.
Qed.

Lemma for_each_triples_runs triples : forall w,
  tracks flushed fs0 out w ->
  let r := blocks_from flushed fs0 out (w_out w) (candidates_of triples) in
  runs flushed fs0 out
    (for_each triples
       (fun t => emit (EvScandir (fst (fst t))) ;;
                 (fun '(root, dirs, files) =>
                    for_each files (per_file flushed out root)) t))
    w (snd r) (chunks_of r) (trace_of flushed fs0 out (w_out w) triples).
Proof.
  induction triples as [|[[root dirs] files] triples IH]; intros w T;
    [now apply runs_ret|].
  set (w0 := World (w_fs w) (w_out w) (w_log w ++ [EvScandir root])%list).
  assert (T0 : tracks flushed fs0 out w0) by exact T.
  pose proof (for_each_files_runs root files w0 T0) as H1.
  cbv zeta in H1 |- *. cbn [w_out w0] in H1.
  rewrite candidates_of_cons, blocks_from_app. cbv zeta.
  cbn [for_each trace_of fst snd].
  destruct (blocks_from flushed fs0 out (w_out w)
              (map (pair root) (filter is_js files))) as [bs1 e1].
  cbn [fst snd] in H1 |- *.
  assert (S1 : forall e c v,
             runs flushed fs0 out
               (for_each files (per_file flushed out root) ;; 
                for_each triples
                  (fun t => emit (EvScandir (fst (fst t))) ;;
                            (fun '(root, dirs, files) =>
                               for_each files (per_file flushed out root)) t))
               w0 e c v ->
             runs flushed fs0 out
               ((emit (EvScandir root) ;;
                 for_each files (per_file flushed out root)) ;;
                for_each triples
                  (fun t => emit (EvScandir (fst (fst t))) ;;
                            (fun '(root, dirs, files) =>
                               for_each files (per_file flushed out root)) t))
               w e c (EvScandir root :: v)).
  { intros e c v. unfold runs, bind, emit. fold w0. intros ->.
    cbn [w_out w_log w0]. now rewrite <- app_assoc. }
  apply S1.
  destruct e1 as [| |r1 f1];
    [|rewrite app_nil_r; now apply runs_stop
     |rewrite app_nil_r; now apply runs_stop].
  unfold chunks_of, events_of in H1.
  cbn [fst snd last_chunks last_events] in H1.
  rewrite !app_nil_r in H1.
  rewrite chunks_of_app. unfold events_of at 1.
  cbn [fst snd last_events]. rewrite app_nil_r.
  eapply runs_seq; [exact H1|].
  match goal with |- runs _ _ _ _ ?w1 _ _ _ =>
    specialize (IH w1 eq_refl) end.
  cbv zeta in IH. cbn [w_out w0] in IH |- *.
  destruct (blocks_from flushed fs0 out _ (candidates_of triples)).
  exact IH.
Qed.

End Loops.

(** ** The run of [processa_js_files] *)

Lemma chunks_of_hung bs root filename :
  chunks_of (bs, Hung root filename) =
  (flat_map render bs ++ [header filename])%list.
Proof. reflexivity. Qed.

(** A run of [processa_js_files] that opens its output, operation by
    operation. *)
Lemma processa_js_files_run flushed cartella out w fs0 :
  open_w (w_fs w) out = Some fs0 ->
  let r := run_result flushed fs0 cartella out in
  processa_js_files flushed cartella out w =
  (result_of (snd r),
   World (put_raw fs0 out (final_raw flushed (snd r) (chunks_of r)))
         (chunks_of r)
         (w_log w ++ [EvOpenW out]
          ++ trace_of flushed fs0 out [] (os_walk fs0 cartella)
          ++ closing out (snd r))%list).
Proof.
  intros H r. destruct w as [fs chunks log]. simpl in H.
  assert (T0 : tracks flushed fs0 out
                 (World fs0 [] (log ++ [EvOpenW out])%list)).
  { unfold tracks. simpl. symmetry. eapply put_raw_open_w; eassumption. }
  pose proof (for_each_triples_runs flushed fs0 out (os_walk fs0 cartella)
                _ T0) as E1.
  cbv zeta in E1. cbn [w_out] in E1.
  fold (candidates fs0 cartella) in E1.
  fold (run_result flushed fs0 cartella out) in E1. fold r in E1.
  unfold runs in E1. cbn [w_out w_log app] in E1.
  unfold processa_js_files, with_open_write, open_write, finally,
    for_os_walk, close.
  unfold per_file in E1.
  cbv beta iota zeta delta [bind emit w_fs w_out w_log] in E1 |- *.
  rewrite (open_for_writing_opened _ _ _ H). cbv beta iota. rewrite E1.
  destruct r as [bs [| |root filename]]; cbn [snd result_of final_raw closing];
    rewrite ?put_raw_put_raw, <- ?app_assoc; try reflexivity.
  rewrite chunks_of_hung, visible_app. now rewrite app_nil_r.
Qed.

Lemma processa_js_files_refused flushed cartella out w :
  open_for_writing (w_fs w) out = Refused ->
  exists msg,
    processa_js_files flushed cartella out w =
    (inl (Exception msg),
     World (w_fs w) (w_out w) (w_log w ++ [EvOpenW out])).
Proof.
  intros H. destruct w as [fs chunks log]. simpl in H.
  unfold processa_js_files, with_open_write, open_write.
  cbv beta iota zeta delta [bind emit w_fs w_out w_log]. rewrite H.
  eexists. reflexivity.
Qed.

Lemma processa_js_files_waits flushed cartella out w :
  open_for_writing (w_fs w) out = Waits ->
  processa_js_files flushed cartella out w =
  (inl Blocked, World (w_fs w) (w_out w) (w_log w ++ [EvOpenW out])).
Proof.
  intros H. destruct w as [fs chunks log]. simpl in H.
  unfold processa_js_files, with_open_write, open_write.
  cbv beta iota zeta delta [bind emit w_fs w_out w_log]. now rewrite H.
Qed.

(** ** The runs of [main] *)

Lemma run_main_usage flushed prog args fs :
  List.length args <> 2 ->
  run_main flushed prog args fs =
  (Some 1, World fs [] [EvPrint (usage prog)]).
Proof.
  intros N. destruct args as [|a [|b [|c args]]]; try reflexivity.
  now elim N.
Qed.

Lemma run_main_not_dir flushed prog cartella out fs :
  isdir fs cartella = false ->
  run_main flushed prog [cartella; out] fs =
  (Some 1,
   World fs [] [EvIsdir cartella; EvPrint (not_a_directory cartella)]).
Proof.
  intros H. unfold run_main, main, start.
  cbv -[processa_js_files isdir String.append show_path].
  rewrite H. reflexivity.
Qed.

(** [main] with two arguments, the first a directory. *)
Lemma run_main_two flushed prog cartella out fs :
  isdir fs cartella = true ->
  run_main flushed prog [cartella; out] fs =
  let (r, w) := processa_js_files flushed cartella out
                  (World fs [] [EvIsdir cartella]) in
  match r with
  | inr _ =>
      (Some 0,
       World (w_fs w) (w_out w) (w_log w ++ [EvPrint (completed out)])%list)
  | inl e => (exit_status (inl e), w)
  end.
Proof.
  intros H. unfold run_main, main, start.
  cbv -[processa_js_files isdir String.append show_path].
  rewrite H.
  cbv -[processa_js_files isdir String.append show_path].
  destruct (processa_js_files flushed cartella out
              (World fs [] [EvIsdir cartella])) as [[e|u] [fs1 chunks log]];
    reflexivity.
Qed.

Lemma run_main_refused flushed prog cartella out fs :
  isdir fs cartella = true -> open_for_writing fs out = Refused ->
  run_main flushed prog [cartella; out] fs =
  (Some 1, World fs [] [EvIsdir cartella; EvOpenW out]).
Proof.
  intros H O. rewrite (run_main_two flushed prog cartella out fs H).
  destruct (processa_js_files_refused flushed cartella out
              (World fs [] [EvIsdir cartella]) O) as [msg E].
  now rewrite E.
Qed.

Lemma run_main_waits flushed prog cartella out fs :
  isdir fs cartella = true -> open_for_writing fs out = Waits ->
  run_main flushed prog [cartella; out] fs =
  (None, World fs [] [EvIsdir cartella; EvOpenW out]).
Proof.
  intros H O. rewrite (run_main_two flushed prog cartella out fs H).
  now rewrite (processa_js_files_waits flushed cartella out
                 (World fs [] [EvIsdir cartella]) O).
Qed.

(** A run of [main] that opens its output, operation by operation. *)
Lemma run_main_run flushed prog cartella out fs fs0 :
  isdir fs cartella = true -> open_w fs out = Some fs0 ->
  let r := run_result flushed fs0 cartella out in
  run_main flushed prog [cartella; out] fs =
  (exit_status (result_of (snd r)),
   World (put_raw fs0 out (final_raw flushed (snd r) (chunks_of r)))
         (chunks_of r)
         ([EvIsdir cartella; EvOpenW out]
          ++ trace_of flushed fs0 out [] (os_walk fs0 cartella)
          ++ closing out (snd r)
          ++ match snd r with
             | Finished => [EvPrint (completed out)]
             | _ => []
             end)%list).
Proof.
  intros H O r. rewrite (run_main_two flushed prog cartella out fs H).
  rewrite (processa_js_files_run flushed cartella out
             (World fs [] [EvIsdir cartella]) fs0 O).
  cbv zeta. fold r. cbn [w_fs w_out w_log].
  destruct (snd r) as [| |root filename]; cbn [result_of exit_status];
    rewrite ?app_nil_r; try reflexivity.
  f_equal. f_equal. cbn [app]. now rewrite <- !app_assoc.
Qed.

(** ** Lemmas on blocks *)

Lemma read_path_blocks fs p :
  returns fs p = negb match read_path fs p with Blocks => true | _ => false end.
Proof.
  unfold returns, read_path, read_node, decode.
  destruct (lookup fs p) as [[[e|] raw| |l r es]|]; try reflexivity.
  now destruct (valid_utf8 raw).
Qed.

Section BlockLemmas.

Variable flushed : list string -> string.
Variable fs0 : node.
Variable out : path.

(** How the loops end does not depend on what is read. *)
Lemma snd_blocks_from cands : forall chunks,
  snd (blocks_from flushed fs0 out chunks cands) = ending_of fs0 cands.
Proof.
  induction cands as [|[root nm] cands IH]; intros chunks; [reflexivity|].
  cbn [blocks_from ending_of fst snd path_of]. rewrite valid_header.
  destruct (valid_utf8 nm); [|reflexivity].
  rewrite <- (returns_put_raw fs0 out
                (flushed (chunks ++ [header nm])%list)).
  rewrite read_path_blocks.
  destruct (read_path _ _) as [c|e|]; cbn [negb]; try reflexivity;
    match goal with |- context [blocks_from _ _ _ ?ch cands] =>
      specialize (IH ch); destruct (blocks_from flushed fs0 out ch cands)
    end; exact IH.
Qed.

Lemma ending_of_finished cands :
  ending_of fs0 cands = Finished <-> forallb (passes fs0) cands = true.
Proof.
  induction cands as [|c cands IH]; [now split|].
  cbn [ending_of forallb]. unfold passes at 1.
  destruct (valid_utf8 (snd c)); [|now split].
  destruct (returns fs0 (path_of c)); [exact IH|now split].
Qed.

(** The blocks are those of the candidates the loops reach, in order. *)
Lemma map_b_where_blocks_from cands : forall chunks,
  exists rest,
    cands =
    (map b_where (fst (blocks_from flushed fs0 out chunks cands)) ++ rest)%list.
Proof.
  induction cands as [|[root nm] cands IH]; intros chunks;
    [now exists []|].
  cbn [blocks_from].
  destruct (valid_utf8 (header nm)); [|now eexists].
  destruct (read_path _ _) as [c|e|]; [| |now eexists];
    match goal with |- context [blocks_from _ _ _ ?ch cands] =>
      destruct (IH ch) as [rest E];
      destruct (blocks_from flushed fs0 out ch cands) as [bs e'] end;
    exists rest; cbn [fst map b_where b_dir b_name app] in *;
    now rewrite <- E.
Qed.

Lemma blocks_from_all cands : forall chunks,
  forallb (passes fs0) cands = true ->
  map b_where (fst (blocks_from flushed fs0 out chunks cands)) = cands.
Proof.
  intros chunks H. apply ending_of_finished in H.
  rewrite <- (snd_blocks_from cands chunks) in H.
  destruct (map_b_where_blocks_from cands chunks) as [rest E].
  revert chunks H rest E.
  induction cands as [|[root nm] cands IH]; intros chunks H rest E;
    [reflexivity|].
  cbn [blocks_from] in *.
  destruct (valid_utf8 (header nm)); [|discriminate].
  destruct (read_path _ _) as [c|e|]; [| |discriminate];
    match goal with |- context [blocks_from _ _ _ ?ch cands] =>
      specialize (IH ch);
      destruct (blocks_from flushed fs0 out ch cands) as [bs e'] end;
    cbn [fst snd map b_where b_dir b_name app] in *;
    injection E as E; f_equal; eapply IH; eassumption.
Qed.

Lemma length_flat_map_render bs :
  List.length (flat_map render bs) = 2 * List.length bs.
Proof. induction bs as [|b bs IH]; simpl; [reflexivity|]. lia. Qed.

(** The chunks of candidate number [i], if the loops get that far. *)
Lemma chunks_of_nth cands : forall chunks0 i root nm,
  nth_error cands i = Some (root, nm) ->
  let chunks := chunks_of (blocks_from flushed fs0 out chunks0 cands) in
  if forallb (passes fs0) (firstn i cands) && valid_utf8 nm then
    nth_error chunks (2 * i) = Some (header nm) /\
    nth_error chunks (2 * i + 1) =
    second_chunk nm
      (read_path
         (put_raw fs0 out
            (flushed (chunks0 ++ firstn (2 * i + 1) chunks)%list))
         (os_path_join root nm))
  else nth_error chunks (2 * i) = None.
Proof.
  induction cands as [|[r0 f0] cands IH]; intros chunks0 i root nm H;
    [now destruct i|].
  destruct i as [|i].
  - injection H as -> ->. cbn [firstn forallb andb blocks_from].
    rewrite valid_header. destruct (valid_utf8 nm); [|reflexivity].
    destruct (read_path _ _) as [c|e|] eqn:R;
      try (destruct (blocks_from flushed fs0 out _ cands) as [bs e']);
      cbn [chunks_of fst snd flat_map render app b_name body b_seen
           last_chunks Nat.mul Nat.add nth_error firstn];
      rewrite R; now split.
  - cbn [nth_error] in H.
    cbn [firstn forallb blocks_from]. unfold passes at 1.
    cbn [snd fst path_of]. rewrite valid_header.
    replace (2 * S i) with (S (S (2 * i))) by lia.
    replace (S (S (2 * i)) + 1) with (S (S (2 * i + 1))) by lia.
    destruct (valid_utf8 f0); [|reflexivity].
    rewrite <- (returns_put_raw fs0 out
                  (flushed (chunks0 ++ [header f0])%list)).
    rewrite read_path_blocks.
    destruct (read_path _ _) as [c|e|] eqn:R; cbn [negb andb];
      [| |reflexivity];
      match goal with |- context [blocks_from _ _ _ ?ch cands] =>
        specialize (IH ch i root nm H); cbv zeta in IH;
        destruct (blocks_from flushed fs0 out ch cands) as [bs e']
      end;
      cbn [chunks_of fst snd flat_map render app b_name body b_seen
           nth_error firstn] in IH |- *;
      (destruct (forallb (passes fs0) (firstn i cands) && valid_utf8 nm);
       [|exact IH]);
      rewrite <- !app_assoc in IH; exact IH.
Qed.

End BlockLemmas.

(** ** Lemmas on the text of the output *)

Lemma append_empty_r s : s ++ "" = s.
Proof. induction s as [|a s IH]; simpl; [reflexivity|]. now rewrite IH. Qed.

Lemma append_assoc (a b c : string) : (a ++ b) ++ c = a ++ b ++ c.
Proof. induction a as [|x a IH]; simpl; [reflexivity|]. now rewrite IH. Qed.

Lemma text_of_cons s chunks : text_of (s :: chunks) = s ++ text_of chunks.
Proof.
  unfold text_of. destruct chunks as [|c chunks]; simpl;
    [now rewrite append_empty_r|reflexivity].
Qed.

Lemma text_of_app a b : text_of (a ++ b) = text_of a ++ text_of b.
Proof.
  induction a as [|s a IH]; [reflexivity|].
  simpl app. now rewrite !text_of_cons, IH, append_assoc.
Qed.

Lemma split_at_pair (A : Type) (l : list A) : forall k a b,
  nth_error l k = Some a -> nth_error l (k + 1) = Some b ->
  l = (firstn k l ++ a :: b :: skipn (k + 2) l)%list.
Proof.
  induction l as [|x l IH]; intros [|k] a b Ha Hb; try discriminate.
  - simpl in Ha, Hb. injection Ha as ->.
    destruct l as [|y l]; [discriminate|]. injection Hb as ->. reflexivity.
  - simpl in *. f_equal. now apply IH.
Qed.

Lemma last_component_differs (dir dir' : path) (nm nm' : name) :
  nm <> nm' -> (dir ++ [nm])%list <> (dir' ++ [nm'])%list.
Proof. intros N E. apply app_inj_tail in E. now destruct E. Qed.

(** Without carriage returns there is no line end to translate. *)
Lemma universal_newlines_no_cr s :
  has_cr s = false -> universal_newlines s = s.
Proof.
  induction s as [|c s IH]; [reflexivity|]. cbn [has_cr universal_newlines].
  destruct (Ascii.eqb c CR); [discriminate|]. cbn [orb].
  intros H. now rewrite IH.
Qed.

(** ** The run from the start of the program *)

Lemma run_ending_of flushed fs0 cartella out :
  run_ending flushed fs0 cartella out =
  ending_of fs0 (candidates fs0 cartella).
Proof. apply snd_blocks_from. Qed.

Lemma run_blocks_js flushed fs0 cartella out b :
  In b (run_blocks flushed fs0 cartella out) -> is_js (b_name b) = true.
Proof.
  intros H. apply (in_map b_where) in H.
  destruct (map_b_where_blocks_from flushed fs0 out
              (candidates fs0 cartella) []) as [rest E].
  fold (run_result flushed fs0 cartella out) in E.
  fold (run_blocks flushed fs0 cartella out) in E.
  pose proof (candidates_of_js (os_walk fs0 cartella)) as J.
  fold (candidates fs0 cartella) in J. rewrite E in J.
  apply Forall_app in J. destruct J as [J _].
  rewrite Forall_forall in J. apply (J _ H).
Qed.

(** The run from the start of the program, in one equation. *)
Lemma processa_js_files_start flushed cartella out fs fs0 :
  open_w fs out = Some fs0 ->
  let r := processa_js_files flushed cartella out (start fs) in
  fst r = result_of (run_ending flushed fs0 cartella out) /\
  w_out (snd r) = run_chunks flushed fs0 cartella out /\
  w_fs (snd r) =
    put_raw fs0 out
      (final_raw flushed (run_ending flushed fs0 cartella out)
         (run_chunks flushed fs0 cartella out)).
Proof.
  intros H r. unfold r.
  rewrite (processa_js_files_run flushed cartella out (start fs) fs0 H).
  now repeat split.
Qed.

(** When every candidate lets the run go on, it ends normally with one
    block for each. *)
Lemma processa_js_files_all_pass flushed cartella out fs fs0 :
  open_w fs out = Some fs0 ->
  forallb (passes fs0) (candidates fs0 cartella) = true ->
  let r := processa_js_files flushed cartella out (start fs) in
  fst r = inr tt /\
  w_out (snd r) = flat_map render (run_blocks flushed fs0 cartella out) /\
  w_fs (snd r) = put_raw fs0 out (text_of (w_out (snd r))) /\
  map b_where (run_blocks flushed fs0 cartella out) = candidates fs0 cartella.
Proof.
  intros H P r.
  destruct (processa_js_files_start flushed cartella out fs fs0 H)
    as (R & O & F).
  fold r in R, O, F.
  pose proof (run_ending_of flushed fs0 cartella out) as E.
  rewrite (proj2 (ending_of_finished fs0 _) P) in E.
  rewrite F, O, R, E. unfold run_chunks, chunks_of.
  fold (run_blocks flushed fs0 cartella out).
  fold (run_ending flushed fs0 cartella out). rewrite E.
  cbn [last_chunks final_raw result_of]. rewrite app_nil_r.
  repeat split. now apply blocks_from_all.
Qed.

(** The two chunks of candidate number [i], if the loops get to it. *)
Lemma processa_chunks_of_candidate flushed fs cartella out fs0 i root nm :
  open_w fs out = Some fs0 ->
  nth_error (candidates fs0 cartella) i = Some (root, nm) ->
  let chunks :=
    w_out (snd (processa_js_files flushed cartella out (start fs))) in
  if reached fs0 (candidates fs0 cartella) i then
    nth_error chunks (2 * i) = Some ("//" ++ nm ++ nl) /\
    nth_error chunks (2 * i + 1) =
    second_chunk nm
      (read_path (fs_at_read flushed fs0 out chunks i)
                 (os_path_join root nm))
  else nth_error chunks (2 * i) = None.
Proof.
  intros H C chunks.
  destruct (processa_js_files_start flushed cartella out fs fs0 H)
    as (_ & O & _).
  unfold chunks. rewrite O. unfold reached. rewrite C. cbn [snd].
  exact (chunks_of_nth flushed fs0 out _ [] i root nm C).
Qed.

(** Only the output file can change between the start of the program
    and a read. *)
Lemma read_path_fs_at_read_other flushed fs fs0 out chunks i p :
  open_w fs out = Some fs0 -> p <> out ->
  read_path (fs_at_read flushed fs0 out chunks i) p = read_path fs p.
Proof.
  intros H N. unfold fs_at_read.
  rewrite read_path_put_raw_other by assumption.
  now apply read_path_open_w_other with (q := out).
Qed.

Lemma content_at_put_raw fs q fs0 t :
  open_w fs q = Some fs0 -> content_at (put_raw fs0 q t) q = Some t.
Proof.
  intros H. destruct (open_w_lookup _ _ _ H) as [d L]. unfold content_at.
  now rewrite (lookup_put_raw_same _ _ _ _ t L).
Qed.

(** What a read that succeeds returns, from the bytes of the file. *)
Lemma read_path_text fs p contenuto :
  read_path fs p = Text contenuto ->
  exists raw,
    lookup fs p = Some (File None raw) /\ valid_utf8 raw = true /\
    contenuto = universal_newlines raw.
Proof.
  unfold read_path, read_node, decode.
  destruct (lookup fs p) as [[[e|] raw| |l r es]|]; try discriminate.
  destruct (valid_utf8 raw) eqn:V; [|discriminate].
  intros [= <-]. now exists raw.
Qed.

Lemma reached_S fs0 cands i c c' :
  reached fs0 cands i = true ->
  nth_error cands i = Some c -> returns fs0 (path_of c) = true ->
  nth_error cands (S i) = Some c' -> valid_utf8 (snd c') = true ->
  reached fs0 cands (S i) = true.
Proof.
  unfold reached. intros R C P C' V. rewrite C in R. rewrite C', V.
  apply andb_true_iff in R. destruct R as [R Vc].
  rewrite andb_true_r.
  revert i R C Vc C'. induction cands as [|a cands IH]; intros i R C Vc C';
    [now destruct i|].
  destruct i as [|i].
  - injection C as ->. cbn [firstn forallb]. unfold passes.
    now rewrite Vc, P.
  - cbn [firstn forallb] in R |- *. apply andb_true_iff in R.
    destruct R as [-> R]. cbn [andb nth_error] in *.
    now apply IH.
Qed.

Lemma reached_all fs0 cands i c :
  forallb (passes fs0) cands = true -> nth_error cands i = Some c ->
  reached fs0 cands i = true.
Proof.
  unfold reached. intros P C. rewrite C.
  rewrite forallb_forall in P. apply andb_true_iff. split.
  - apply forallb_forall. intros x Hx. apply P.
    rewrite <- (firstn_skipn i cands). apply in_or_app. now left.
  - apply nth_error_In in C. apply P in C. unfold passes in C.
    now apply andb_true_iff in C.
Qed.

(** In a tree without links to directories and without directories that
    cannot be listed, the walk counts every entry. *)
Lemma count_files_plain P n :
  plain n = true -> count_files P n = count_all P n.
Proof.
  induction n as [d t| |l r es IH] using node_induction; try reflexivity.
  cbn [plain]. intros H. apply andb_true_iff in H. destruct H as [-> H].
  cbn [count_files count_all].
  induction IH as [|[x c] es Hc _ IHes]; [reflexivity|].
  apply andb_true_iff in H. destruct H as [Hp H].
  rewrite (IHes H). f_equal. cbn [snd] in Hc.
  destruct c as [d t| |[|] r' es']; try reflexivity; [discriminate|].
  now apply Hc.
Qed.

Lemma count_under_plain P fs top :
  plain_under fs top = true ->
  count_under P fs top = count_all_under P fs top.
Proof.
  unfold plain_under, count_under, count_all_under.
  destruct (lookup fs top); [apply count_files_plain|reflexivity].
Qed.

(** * The claims *)

(** C1, counterexample.  In [proj], [x.js] may not be read, the name
    of the next file cannot be encoded, and [z.js] follows: the run
    writes the block of [x.js] and stops with an error at the header of
    the second file, so that the three files whose name ends in [.js]
    have one block in all. *)
Lemma one_block_per_matching_file_fails : ~ one_block_per_matching_file.
Proof.
  intros H.
  destruct (H all_buffered fs_latin1 ["proj"] ["out.txt"] _ eq_refl)
    as (blocks & E & L).
  apply (f_equal (@List.length string)) in E.
  rewrite length_flat_map_render, L in E. vm_compute in E. discriminate E.
Qed.

(** C1, amended.  When the name of every candidate file can be encoded
    in UTF-8 and none is a FIFO, the run ends normally and the output
    file is the concatenation of exactly one block per candidate file,
    in the order of the traversal.  Their number is the number N of the
    entries whose name ends in [.js], directories apart, in the
    directories the traversal lists: the input directory and, below it,
    the directories that are not symbolic links and can be listed; it is
    the number of such entries in the whole tree when the tree has no
    other directory.  No block is that of a file whose name does not
    end in [.js].  The tree is the one the traversal finds, after the
    output file is opened; it is the tree the program was given whenever
    the output path is not below the input directory. *)
Theorem processa_one_block_per_candidate flushed fs cartella out fs0 :
  open_w fs out = Some fs0 ->
  forallb (passes fs0) (candidates fs0 cartella) = true ->
  let r := processa_js_files flushed cartella out (start fs) in
  fst r = inr tt /\
  exists blocks,
    w_out (snd r) = flat_map render blocks /\
    content_at (w_fs (snd r)) out =
      Some (text_of (flat_map render blocks)) /\
    map b_where blocks = candidates fs0 cartella /\
    List.length blocks = count_under is_js fs0 cartella /\
    (plain_under fs0 cartella = true ->
     List.length blocks = count_all_under is_js fs0 cartella) /\
    (forall b dir nm,
        In b blocks -> is_js nm = false -> b_path b <> (dir ++ [nm])%list) /\
    (is_prefix cartella out = false ->
     lookup fs0 cartella = lookup fs cartella).
Proof.
  intros H P r.
  destruct (processa_js_files_all_pass flushed cartella out fs fs0 H P)
    as (R & O & F & B).
  fold r in R, O, F. split; [assumption|].
  exists (run_blocks flushed fs0 cartella out). rewrite F, O.
  split; [reflexivity|].
  split; [now apply content_at_put_raw with (fs := fs)|].
  split; [assumption|].
  assert (L : List.length (run_blocks flushed fs0 cartella out)
              = count_under is_js fs0 cartella).
  { rewrite <- length_candidates, <- B. now rewrite length_map. }
  split; [assumption|]. split; [|split].
  - intros Pl. rewrite L. now apply count_under_plain.
  - intros b dir nm Hb Hn. apply last_component_differs. intros <-.
    apply run_blocks_js in Hb. congruence.
  - intros Q. now apply lookup_open_w_outside with (q := out).
Qed.

Lemma processa_one_block_per_candidate_witness :
  let r := processa_js_files all_buffered ["proj"] ["out.txt"]
             (start fs_demo) in
  fst r = inr tt /\
  exists blocks,
    w_out (snd r) = flat_map render blocks /\
    content_at (w_fs (snd r)) ["out.txt"] =
      Some (text_of (flat_map render blocks)) /\
    map b_where blocks =
      [(["proj"], "a.js"); (["proj"; "lib.js"], "i.js");
       (["proj"; "sub"], "a.js"); (["proj"; "sub"], "bad.js");
       (["proj"; "sub"], "dos.js")] /\
    List.length blocks = 5 /\
    (plain_under fs_demo_opened ["proj"] = true ->
     List.length blocks = 5) /\
    (forall b dir nm,
        In b blocks -> is_js nm = false -> b_path b <> (dir ++ [nm])%list) /\
    (is_prefix ["proj"] ["out.txt"] = false ->
     lookup fs_demo ["proj"] = lookup fs_demo ["proj"]).
Proof.
  exact (processa_one_block_per_candidate all_buffered fs_demo
           ["proj"] ["out.txt"] fs_demo_opened eq_refl eq_refl).
Defined.

(** C2, counterexample.  [proj/lib.js/i.js] holds the text [secret] and
    may not be read: its block is the header followed by the comment
    about the error, not by the content. *)
Lemma every_block_holds_the_content_fails :
  ~ every_block_holds_the_content.
Proof.
  intros H.
  destruct (H all_buffered fs_demo ["proj"] ["out.txt"] _ 1
              ["proj"; "lib.js"] "i.js"
              (Some permission_denied) "secret"
              eq_refl eq_refl ltac:(discriminate) eq_refl) as [_ B].
  vm_compute in B. discriminate B.
Qed.

(** C2, amended.  For every candidate file the loops get to and read
    successfully, the block written is the line [//<filename>], with
    nothing between the slashes and the name, followed at once by the
    text read and by one newline; when the run is over the output file
    holds the two one after the other.  For any file but the output
    itself, the text read is the bytes of the file decoded as UTF-8,
    with the line ends [\r\n] and [\r] turned into [\n]. *)
Theorem processa_block_of_readable
    flushed fs cartella out fs0 i root nm contenuto :
  open_w fs out = Some fs0 ->
  nth_error (candidates fs0 cartella) i = Some (root, nm) ->
  reached fs0 (candidates fs0 cartella) i = true ->
  let r := processa_js_files flushed cartella out (start fs) in
  read_path (fs_at_read flushed fs0 out (w_out (snd r)) i)
            (os_path_join root nm) = Text contenuto ->
  nth_error (w_out (snd r)) (2 * i) = Some ("//" ++ nm ++ nl) /\
  nth_error (w_out (snd r)) (2 * i + 1) = Some (contenuto ++ nl) /\
  (fst r <> inl Blocked ->
   content_at (w_fs (snd r)) out =
     Some (text_of (firstn (2 * i) (w_out (snd r)))
           ++ ("//" ++ nm ++ nl) ++ (contenuto ++ nl)
           ++ text_of (skipn (2 * i + 2) (w_out (snd r))))) /\
  (os_path_join root nm <> out ->
   exists raw,
     lookup fs (os_path_join root nm) = Some (File None raw) /\
     valid_utf8 raw = true /\
     contenuto = universal_newlines raw).
Proof.
  intros H C G r R.
  pose proof (processa_chunks_of_candidate flushed fs cartella out fs0
                i root nm H C) as A.
  cbv zeta in A. fold r in A. rewrite G, R in A. destruct A as [A B].
  split; [assumption|]. split; [assumption|]. split.
  - destruct (processa_js_files_start flushed cartella out fs fs0 H)
      as (S & O & F).
    fold r in S, O, F. intros N. rewrite F, <- O.
    rewrite (content_at_put_raw fs out fs0 _ H).
    assert (E : final_raw flushed (run_ending flushed fs0 cartella out)
                  (w_out (snd r)) = text_of (w_out (snd r))).
    { rewrite S in N.
      destruct (run_ending flushed fs0 cartella out); try reflexivity.
      now elim N. }
    rewrite E. rewrite (split_at_pair _ _ _ _ _ A B) at 1.
    now rewrite text_of_app, !text_of_cons.
  - intros N. apply read_path_text. rewrite <- R. symmetry.
    now apply read_path_fs_at_read_other.
Qed.

Lemma processa_block_of_readable_witness :
  let r := processa_js_files all_buffered ["proj"] ["out.txt"]
             (start fs_demo) in
  nth_error (w_out (snd r)) 8 = Some ("//" ++ "dos.js" ++ nl) /\
  nth_error (w_out (snd r)) 9 = Some (("a" ++ nl ++ "b") ++ nl) /\
  (fst r <> inl Blocked ->
   content_at (w_fs (snd r)) ["out.txt"] =
     Some (text_of (firstn 8 (w_out (snd r)))
           ++ ("//" ++ "dos.js" ++ nl) ++ (("a" ++ nl ++ "b") ++ nl)
           ++ text_of (skipn 10 (w_out (snd r))))) /\
  (os_path_join ["proj"; "sub"] "dos.js" <> ["out.txt"] ->
   exists raw,
     lookup fs_demo (os_path_join ["proj"; "sub"] "dos.js") =
       Some (File None raw) /\
     valid_utf8 raw = true /\
     "a" ++ nl ++ "b" = universal_newlines raw).
Proof.
  exact (processa_block_of_readable all_buffered fs_demo
           ["proj"] ["out.txt"] _ 4 ["proj"; "sub"] "dos.js"
           ("a" ++ nl ++ "b") eq_refl eq_refl eq_refl eq_refl).
Defined.

(** C3, counterexample.  In [proj], [x.js] may not be read and the name
    of the file after it cannot be encoded in UTF-8: the comment about
    the error is written for [x.js], then writing the next header raises
    an error outside the [try], and the run ends there, before
    [z.js]. *)
Lemma an_unreadable_file_never_stops_the_run_fails :
  ~ an_unreadable_file_never_stops_the_run.
Proof.
  intros H.
  destruct (H all_buffered fs_latin1 ["proj"] ["out.txt"] _ 0
              ["proj"] "x.js" permission_denied
              eq_refl eq_refl ltac:(discriminate) eq_refl) as [R _].
  vm_compute in R. discriminate R.
Qed.

(** C3, amended.  When reading a candidate file the loops have got to
    raises an error, after the header of the file comes the line
    [// Impossibile leggere <filename>: <error>] in place of the
    content, and the loops go on to the next candidate, whose header is
    written if its name can be encoded.  When the name of every
    candidate can be encoded and none is a FIFO, the run goes on to its
    normal end and every candidate has its header and its second chunk
    in the output.  For any file but the output itself, the error is
    the one reading it gives in the file system the program was started
    in. *)
Theorem processa_unreadable_is_annotated
    flushed fs cartella out fs0 i root nm e :
  open_w fs out = Some fs0 ->
  nth_error (candidates fs0 cartella) i = Some (root, nm) ->
  reached fs0 (candidates fs0 cartella) i = true ->
  let r := processa_js_files flushed cartella out (start fs) in
  read_path (fs_at_read flushed fs0 out (w_out (snd r)) i)
            (os_path_join root nm) = Error e ->
  nth_error (w_out (snd r)) (2 * i) = Some ("//" ++ nm ++ nl) /\
  nth_error (w_out (snd r)) (2 * i + 1) =
    Some ("// Impossibile leggere " ++ nm ++ ": "
          ++ text_of_message e ++ nl) /\
  (forall root' nm',
      nth_error (candidates fs0 cartella) (S i) = Some (root', nm') ->
      valid_utf8 nm' = true ->
      nth_error (w_out (snd r)) (2 * S i) = Some ("//" ++ nm' ++ nl)) /\
  (forallb (passes fs0) (candidates fs0 cartella) = true ->
   fst r = inr tt /\
   List.length (w_out (snd r)) = 2 * List.length (candidates fs0 cartella) /\
   forall j root' nm',
     nth_error (candidates fs0 cartella) j = Some (root', nm') ->
     nth_error (w_out (snd r)) (2 * j) = Some ("//" ++ nm' ++ nl)) /\
  (os_path_join root nm <> out ->
   read_path fs (os_path_join root nm) = Error e).
Proof.
  intros H C G r R.
  pose proof (processa_chunks_of_candidate flushed fs cartella out fs0
                i root nm H C) as A.
  cbv zeta in A. fold r in A. rewrite G, R in A. destruct A as [A B].
  split; [assumption|]. split; [assumption|]. split; [|split].
  - intros root' nm' C' V.
    assert (G' : reached fs0 (candidates fs0 cartella) (S i) = true).
    { apply (reached_S fs0 _ i (root, nm) (root', nm')); try assumption.
      unfold path_of, fs_at_read in *. cbn [fst snd].
      rewrite <- (returns_put_raw fs0 out
                    (flushed (firstn (2 * i + 1) (w_out (snd r))))).
      rewrite read_path_blocks. now rewrite R. }
    pose proof (processa_chunks_of_candidate flushed fs cartella out fs0
                  (S i) root' nm' H C') as A'.
    cbv zeta in A'. fold r in A'. rewrite G' in A'. apply A'.
  - intros P.
    destruct (processa_js_files_all_pass flushed cartella out fs fs0 H P)
      as (S & O & _ & M).
    fold r in S, O. split; [assumption|]. split.
    + rewrite O, length_flat_map_render, <- M. now rewrite length_map.
    + intros j root' nm' C'.
      pose proof (processa_chunks_of_candidate flushed fs cartella out fs0
                    j root' nm' H C') as A'.
      cbv zeta in A'. fold r in A'.
      rewrite (reached_all fs0 _ j _ P C') in A'. apply A'.
  - intros N. rewrite <- R. symmetry.
    now apply read_path_fs_at_read_other.
Qed.

Lemma processa_unreadable_is_annotated_witness :
  let r := processa_js_files all_buffered ["proj"] ["out.txt"]
             (start fs_demo) in
  nth_error (w_out (snd r)) 2 = Some ("//" ++ "i.js" ++ nl) /\
  nth_error (w_out (snd r)) 3 =
    Some ("// Impossibile leggere " ++ "i.js" ++ ": "
          ++ "[Errno 13] Permission denied" ++ nl) /\
  (forall root' nm',
      nth_error (candidates fs_demo_opened ["proj"]) 2 = Some (root', nm') ->
      valid_utf8 nm' = true ->
      nth_error (w_out (snd r)) 4 = Some ("//" ++ nm' ++ nl)) /\
  (forallb (passes fs_demo_opened) (candidates fs_demo_opened ["proj"])
   = true ->
   fst r = inr tt /\
   List.length (w_out (snd r)) = 2 * 5 /\
   forall j root' nm',
     nth_error (candidates fs_demo_opened ["proj"]) j = Some (root', nm') ->
     nth_error (w_out (snd r)) (2 * j) = Some ("//" ++ nm' ++ nl)) /\
  (os_path_join ["proj"; "lib.js"] "i.js" <> ["out.txt"] ->
   read_path fs_demo (os_path_join ["proj"; "lib.js"] "i.js") =
   Error permission_denied).
Proof.
  exact (processa_unreadable_is_annotated all_buffered fs_demo
           ["proj"] ["out.txt"] fs_demo_opened 1 ["proj"; "lib.js"] "i.js"
           permission_denied eq_refl eq_refl eq_refl eq_refl).
Defined.

(** C4, counterexample.  [proj/sub/dos.js] holds the bytes of [a], a
    carriage return, a line feed and [b]: it is read in text mode, and
    what is written is [a], a line feed, [b] and the appended newline,
    one byte less than the content of the file. *)
Lemma the_content_is_the_raw_text_fails : ~ the_content_is_the_raw_text.
Proof.
  intros H.
  pose proof (H all_buffered fs_demo ["proj"] ["out.txt"] _ 4
                ["proj"; "sub"] "dos.js" ("a" ++ crlf ++ "b")
                ("a" ++ nl ++ "b")
                eq_refl eq_refl ltac:(discriminate) eq_refl eq_refl) as B.
  vm_compute in B. discriminate B.
Qed.

(** C4, amended.  For every candidate file the loops get to, other than
    the output itself, that can be read and holds valid UTF-8, the
    second chunk of its block is the bytes of the file with the line
    ends [\r\n] and [\r] turned into [\n], followed by one newline,
    whatever the text ends with; it is the very bytes of the file
    followed by one newline when they hold no carriage return. *)
Theorem processa_content_then_newline
    flushed fs cartella out fs0 i root nm raw :
  open_w fs out = Some fs0 ->
  nth_error (candidates fs0 cartella) i = Some (root, nm) ->
  reached fs0 (candidates fs0 cartella) i = true ->
  os_path_join root nm <> out ->
  lookup fs (os_path_join root nm) = Some (File None raw) ->
  valid_utf8 raw = true ->
  let r := processa_js_files flushed cartella out (start fs) in
  nth_error (w_out (snd r)) (2 * i + 1) =
    Some (universal_newlines raw ++ nl) /\
  (has_cr raw = false ->
   nth_error (w_out (snd r)) (2 * i + 1) = Some (raw ++ nl)).
Proof.
  intros H C G N L V r.
  pose proof (processa_chunks_of_candidate flushed fs cartella out fs0
                i root nm H C) as A.
  cbv zeta in A. fold r in A. rewrite G in A. destruct A as [_ B].
  rewrite (read_path_fs_at_read_other flushed fs fs0 out _ i _ H N) in B.
  unfold read_path in B. rewrite L in B. cbn [read_node] in B.
  unfold decode in B. rewrite V in B. cbn [second_chunk] in B.
  split; [assumption|].
  intros K. now rewrite (universal_newlines_no_cr raw K) in B.
Qed.

Lemma processa_content_then_newline_witness :
  let r := processa_js_files all_buffered ["proj"] ["out.txt"]
             (start fs_demo) in
  nth_error (w_out (snd r)) 1 = Some (universal_newlines "let x=1;" ++ nl) /\
  (has_cr "let x=1;" = false ->
   nth_error (w_out (snd r)) 1 = Some ("let x=1;" ++ nl)).
Proof.
  exact (processa_content_then_newline all_buffered fs_demo
           ["proj"] ["out.txt"] _ 0 ["proj"] "a.js" "let x=1;"
           eq_refl eq_refl eq_refl ltac:(discriminate) eq_refl eq_refl).
Defined.

(** C10.  The header of a candidate file is made of its base name only:
    whenever it is written it is [//<filename>] and a newline, and the
    directory the file was found in does not occur in it, so that files
    of the same name in different directories have the same header.
    The header is written for every candidate the loops get to. *)
Theorem processa_header_is_base_name
    flushed fs cartella out fs0 i root nm :
  open_w fs out = Some fs0 ->
  nth_error (candidates fs0 cartella) i = Some (root, nm) ->
  let chunks :=
    w_out (snd (processa_js_files flushed cartella out (start fs))) in
  (forall s, nth_error chunks (2 * i) = Some s -> s = "//" ++ nm ++ nl) /\
  (reached fs0 (candidates fs0 cartella) i = true ->
   nth_error chunks (2 * i) = Some ("//" ++ nm ++ nl) /\
   forall j root',
     nth_error (candidates fs0 cartella) j = Some (root', nm) ->
     reached fs0 (candidates fs0 cartella) j = true ->
     nth_error chunks (2 * j) = nth_error chunks (2 * i)).
Proof.
  intros H C chunks.
  pose proof (processa_chunks_of_candidate flushed fs cartella out fs0
                i root nm H C) as A.
  cbv zeta in A. fold chunks in A. split.
  - intros s E.
    destruct (reached fs0 (candidates fs0 cartella) i); [|congruence].
    destruct A as [A _]. congruence.
  - intros G. rewrite G in A. destruct A as [A _]. split; [assumption|].
    intros j root' C' G'. rewrite A.
    pose proof (processa_chunks_of_candidate flushed fs cartella out fs0
                  j root' nm H C') as A'.
    cbv zeta in A'. fold chunks in A'. rewrite G' in A'. apply A'.
Qed.

Lemma processa_header_is_base_name_witness :
  let chunks :=
    w_out (snd (processa_js_files all_buffered ["proj"] ["out.txt"]
                  (start fs_demo))) in
  (forall s, nth_error chunks 0 = Some s -> s = "//" ++ "a.js" ++ nl) /\
  (reached fs_demo_opened (candidates fs_demo_opened ["proj"]) 0 = true ->
   nth_error chunks 0 = Some ("//" ++ "a.js" ++ nl) /\
   forall j root',
     nth_error (candidates fs_demo_opened ["proj"]) j = Some (root', "a.js") ->
     reached fs_demo_opened (candidates fs_demo_opened ["proj"]) j = true ->
     nth_error chunks (2 * j) = nth_error chunks 0).
Proof.
  exact (processa_header_is_base_name all_buffered fs_demo
           ["proj"] ["out.txt"] fs_demo_opened 0 ["proj"] "a.js" eq_refl eq_refl).
Defined.








(** Two runs whose output opens to the same file system go the same
    way. *)
Lemma processa_js_files_same_open flushed cartella out fs fs' fs0 chunks log :
  open_w fs out = Some fs0 -> open_w fs' out = Some fs0 ->
  processa_js_files flushed cartella out (World fs' chunks log) =
  processa_js_files flushed cartella out (World fs chunks log).
Proof.
  intros H H'.
  cbv beta iota zeta delta
    [processa_js_files with_open_write open_write bind emit
     w_fs w_out w_log].
  now rewrite (open_for_writing_opened _ _ _ H),
    (open_for_writing_opened _ _ _ H').
Qed.

Lemma run_main_same_open flushed prog cartella out fs fs' fs0 :
  isdir fs cartella = true -> isdir fs' cartella = true ->
  open_w fs out = Some fs0 -> open_w fs' out = Some fs0 ->
  run_main flushed prog [cartella; out] fs' =
  run_main flushed prog [cartella; out] fs.
Proof.
  intros D D' H H'. rewrite !run_main_two by assumption.
  now rewrite (processa_js_files_same_open flushed cartella out
                 fs fs' fs0 [] [EvIsdir cartella] H H').
Qed.

(** C8.  Running the program again with the same arguments, on the file
    system the first run left, repeats the first run: same exit status,
    same operations, same chunks written, and the same file system at
    the end, output file included.  The same holds of
    [processa_js_files] alone. *)
Theorem second_run_repeats_first flushed prog args cartella out fs :
  run_main flushed prog args (w_fs (snd (run_main flushed prog args fs))) =
  run_main flushed prog args fs /\
  processa_js_files flushed cartella out
    (start (w_fs (snd (processa_js_files flushed cartella out (start fs))))) =
  processa_js_files flushed cartella out (start fs).
Proof.
  split.
  - destruct (Nat.eq_dec (List.length args) 2) as [L|L].
    + destruct args as [|c [|o [|x args]]]; try discriminate L.
      destruct (isdir fs c) eqn:D;
        [destruct (open_for_writing fs o) as [fs0| |] eqn:O|].
      * apply open_for_writing_inv in O.
        pose proof (run_main_run flushed prog c o fs fs0 D O) as E.
        cbv zeta in E. rewrite E at 1. cbn [snd w_fs].
        apply run_main_same_open with (fs0 := fs0); try assumption.
        -- rewrite isdir_put_raw.
           now rewrite (isdir_open_w fs o fs0 c O).
        -- now apply open_w_put_raw with (fs := fs).
      * pose proof (run_main_refused flushed prog c o fs D O) as E.
        rewrite E. cbn [snd w_fs]. exact E.
      * pose proof (run_main_waits flushed prog c o fs D O) as E.
        rewrite E. cbn [snd w_fs]. exact E.
      * pose proof (run_main_not_dir flushed prog c o fs D) as E.
        rewrite E. cbn [snd w_fs]. exact E.
    + pose proof (run_main_usage flushed prog args fs L) as E.
      rewrite E. cbn [snd w_fs]. exact E.
  - destruct (open_for_writing fs out) as [fs0| |] eqn:O.
    + apply open_for_writing_inv in O.
      destruct (processa_js_files_start flushed cartella out fs fs0 O)
        as (_ & _ & F).
      rewrite F. unfold start.
      apply processa_js_files_same_open with (fs0 := fs0);
        [assumption|].
      now apply open_w_put_raw with (fs := fs).
    + destruct (processa_js_files_refused flushed cartella out (start fs) O)
        as [msg E].
      rewrite E. cbn [snd w_fs start]. exact E.
    + pose proof (processa_js_files_waits flushed cartella out (start fs) O)
        as E.
      rewrite E. cbn [snd w_fs start]. exact E.
Qed.

Lemma lookup_app p : forall n q,
  lookup n (p ++ q)%list =
  match lookup n p with
  | Some m => lookup m q
  | None => None
  end.
Proof.
  induction p as [|x p IH]; intros n q; [reflexivity|].
  destruct n as [d t| |l r es]; simpl; try reflexivity.
  destruct (assoc x es) as [c|]; [apply IH|reflexivity].
Qed.

(** C9, counterexample.  [proj/lib.js] is a directory: [os.walk] reports
    it in [dirs], the program loops over [files] only, and no block
    names it. *)
Lemma every_entry_gets_a_block_fails : ~ every_entry_gets_a_block.
Proof.
  intros H.
  pose proof (H all_buffered fs_demo ["proj"] ["out.txt"] _ []
                "lib.js" _ eq_refl eq_refl eq_refl) as B.
  vm_compute in B.
  repeat (destruct B as [B|B]; [discriminate B|]). exact B.
Qed.

(** C9, amended.  Every entry whose name ends in [.js] and that is not a
    directory, in a directory the traversal lists (the input directory
    and, at any depth below it, the directories that are not symbolic
    links and can be listed), is a candidate, whether or not it is a
    regular file that can be read; it has its block in the output as
    soon as the loops get to it, which they do when the name of every
    candidate can be encoded in UTF-8 and none is a FIFO.  Directories
    get no block: the chunks are then twice as many as the entries that
    are not directories and have such a name. *)
Theorem processa_every_file_entry_gets_a_block
    flushed fs cartella out fs0 top rel es nm n :
  open_w fs out = Some fs0 ->
  lookup fs0 cartella = Some top ->
  walked top rel = Some es ->
  assoc nm es = Some n -> is_dir n = false ->
  endswith nm ".js" = true ->
  let chunks :=
    w_out (snd (processa_js_files flushed cartella out (start fs))) in
  exists i,
    nth_error (candidates fs0 cartella) i =
      Some ((cartella ++ rel)%list, nm) /\
    (reached fs0 (candidates fs0 cartella) i = true ->
     nth_error chunks (2 * i) = Some ("//" ++ nm ++ nl)) /\
    (forallb (passes fs0) (candidates fs0 cartella) = true ->
     nth_error chunks (2 * i) = Some ("//" ++ nm ++ nl) /\
     List.length chunks = 2 * count_under is_js fs0 cartella).
Proof.
  intros H T W A D J chunks.
  assert (C : In ((cartella ++ rel)%list, nm) (candidates fs0 cartella)).
  { unfold candidates, os_walk. rewrite T.
    eapply candidates_walk_node_reached; eassumption. }
  apply In_nth_error in C. destruct C as [i C]. exists i.
  split; [assumption|].
  pose proof (processa_chunks_of_candidate flushed fs cartella out fs0
                i _ nm H C) as B.
  cbv zeta in B. fold chunks in B. split.
  - intros G. rewrite G in B. apply B.
  - intros P. rewrite (reached_all fs0 _ i _ P C) in B.
    split; [apply B|].
    destruct (processa_js_files_all_pass flushed cartella out fs fs0 H P)
      as (_ & O & _ & M).
    unfold chunks. rewrite O, length_flat_map_render.
    rewrite <- length_candidates, <- M. now rewrite length_map.
Qed.

Lemma processa_every_file_entry_gets_a_block_witness :
  let chunks :=
    w_out (snd (processa_js_files all_buffered ["proj"] ["out.txt"]
                  (start fs_demo))) in
  exists i,
    nth_error (candidates fs_demo_opened ["proj"]) i =
      Some (["proj"; "lib.js"], "i.js") /\
    (reached fs_demo_opened (candidates fs_demo_opened ["proj"]) i = true ->
     nth_error chunks (2 * i) = Some ("//" ++ "i.js" ++ nl)) /\
    (forallb (passes fs_demo_opened) (candidates fs_demo_opened ["proj"])
     = true ->
     nth_error chunks (2 * i) = Some ("//" ++ "i.js" ++ nl) /\
     List.length chunks = 2 * 5).
Proof.
  exact (processa_every_file_entry_gets_a_block all_buffered fs_demo
           ["proj"] ["out.txt"] fs_demo_opened proj_demo ["lib.js"]
           [("i.js", File (Some permission_denied) "secret")] "i.js"
           (File (Some permission_denied) "secret")
           eq_refl eq_refl eq_refl eq_refl eq_refl eq_refl).
Defined.

(** * Further properties of the program *)

(** ** What a log reads, prints and writes *)

Lemma reads_of_app a b : reads_of (a ++ b) = (reads_of a ++ reads_of b)%list.
Proof. apply flat_map_app. Qed.

Lemma prints_of_app a b :
  prints_of (a ++ b) = (prints_of a ++ prints_of b)%list.
Proof. apply flat_map_app. Qed.

Lemma writes_of_app a b :
  writes_of (a ++ b) = (writes_of a ++ writes_of b)%list.
Proof. apply flat_map_app. Qed.

(** Listings apart, the operations of the loops are those of the blocks
    of all the candidates. *)
Lemma flat_map_trace_of (A : Type) (f : event -> list A) flushed fs0 out
    triples :
  (forall p, f (EvScandir p) = []) ->
  forall chunks,
    flat_map f (trace_of flushed fs0 out chunks triples) =
    flat_map f
      (events_of out
         (blocks_from flushed fs0 out chunks (candidates_of triples))).
Proof.
  intros Hf.
  induction triples as [|[[root dirs] files] triples IH]; intros chunks;
    [reflexivity|].
  cbn [trace_of fst snd flat_map]. rewrite Hf. cbn [app].
  rewrite candidates_of_cons, blocks_from_app. cbv zeta.
  rewrite flat_map_app.
  destruct (blocks_from flushed fs0 out chunks
              (map (pair root) (filter is_js files))) as [bs1 e1].
  cbn [fst snd].
  destruct e1 as [| |r1 f1]; cbn [flat_map]; rewrite ?app_nil_r;
    try reflexivity.
  rewrite IH, events_of_app, flat_map_app.
  unfold events_of at 1. cbn [fst snd last_events]. rewrite app_nil_r.
  now destruct (blocks_from flushed fs0 out _ (candidates_of triples)).
Qed.

Lemma reads_of_events out bs e :
  reads_of (events_of out (bs, e)) =
  (map b_path bs ++
   match e with
   | Hung root filename => [os_path_join root filename]
   | _ => []
   end)%list.
Proof.
  unfold events_of. rewrite reads_of_app. cbn [fst snd]. f_equal.
  - induction bs as [|b bs IH]; simpl; [reflexivity|]. now rewrite IH.
  - now destruct e.
Qed.

Lemma prints_of_events out r : prints_of (events_of out r) = [].
Proof.
  destruct r as [bs e]. unfold events_of. rewrite prints_of_app.
  cbn [fst snd]. replace (prints_of (last_events out e)) with (@nil string)
    by (now destruct e).
  rewrite app_nil_r.
  induction bs as [|b bs IH]; simpl; [reflexivity|]. exact IH.
Qed.

Lemma writes_of_events out bs e :
  writes_of (events_of out (bs, e)) =
  (repeat out (2 * List.length bs) ++
   match e with
   | Hung _ _ => [out]
   | _ => []
   end)%list.
Proof.
  unfold events_of. rewrite writes_of_app. cbn [fst snd]. f_equal.
  - induction bs as [|b bs IH]; [reflexivity|].
    cbn [flat_map events_of_block app writes_of List.length].
    fold (writes_of (flat_map (events_of_block out) bs)). rewrite IH.
    replace (2 * S (List.length bs)) with (S (S (2 * List.length bs)))
      by lia.
    reflexivity.
  - now destruct e.
Qed.

(** ** Where the loops stop *)

Section Stops.

Variable flushed : list string -> string.
Variable fs0 : node.
Variable out : path.

(** The blocks are those of the first candidates, and the candidate the
    loops stop at comes next. *)
Lemma blocks_from_split cands : forall chunks,
  let r := blocks_from flushed fs0 out chunks cands in
  exists rest,
    cands = (map b_where (fst r) ++ rest)%list /\
    match snd r with
    | Finished => rest = []
    | Aborted => exists c rest', rest = c :: rest' /\ valid_utf8 (snd c) = false
    | Hung root filename => exists rest', rest = (root, filename) :: rest'
    end.
Proof.
  induction cands as [|[root nm] cands IH]; intros chunks; cbv zeta;
    [now exists []|].
  cbv zeta in IH. cbn [blocks_from]. rewrite valid_header.
  destruct (valid_utf8 nm) eqn:V;
    [|exists ((root, nm) :: cands); split; [reflexivity|];
      now exists (root, nm), cands].
  destruct (read_path _ _) as [c|e|];
    [| |exists ((root, nm) :: cands); split; [reflexivity|];
        now exists cands];
    match goal with |- context [blocks_from _ _ _ ?ch cands] =>
      destruct (IH ch) as (rest & E & T);
      destruct (blocks_from flushed fs0 out ch cands) as [bs e']
    end;
    exists rest; cbn [fst snd map b_where b_dir b_name app] in *;
    (split; [now rewrite <- E|exact T]).
Qed.

(** The loops stop at the first candidate that does not let them go
    on. *)
Lemma blocks_from_stop cands : forall chunks i c,
  nth_error cands i = Some c ->
  forallb (passes fs0) (firstn i cands) = true ->
  passes fs0 c = false ->
  let r := blocks_from flushed fs0 out chunks cands in
  List.length (fst r) = i /\
  snd r = if valid_utf8 (snd c) then Hung (fst c) (snd c) else Aborted.
Proof.
  intros chunks i c C P N r. unfold r. clear r.
  rewrite snd_blocks_from. split.
  - revert chunks i C P.
    induction cands as [|[r0 f0] cands IH]; intros chunks i C P;
      [now destruct i|].
    destruct i as [|i].
    + injection C as <-. cbn [blocks_from]. rewrite valid_header.
      unfold passes, path_of in N. cbn [fst snd] in N.
      destruct (valid_utf8 f0); [|reflexivity].
      cbn [andb] in N.
      rewrite <- (returns_put_raw fs0 out
                    (flushed (chunks ++ [header f0])%list)) in N.
      rewrite read_path_blocks in N.
      destruct (read_path _ _); try discriminate N. reflexivity.
    + cbn [nth_error firstn forallb] in C, P.
      apply andb_true_iff in P. destruct P as [P0 P].
      unfold passes, path_of in P0. cbn [fst snd] in P0.
      apply andb_true_iff in P0. destruct P0 as [V0 R0].
      cbn [blocks_from]. rewrite valid_header, V0.
      rewrite <- (returns_put_raw fs0 out
                    (flushed (chunks ++ [header f0])%list)) in R0.
      rewrite read_path_blocks in R0.
      destruct (read_path _ _) as [t|e|]; try discriminate R0;
        match goal with |- context [blocks_from _ _ _ ?ch cands] =>
          specialize (IH ch i C P);
          destruct (blocks_from flushed fs0 out ch cands) as [bs e']
        end; cbn [fst List.length] in *; now rewrite IH.
  - revert i C P.
    induction cands as [|c0 cands IH]; intros i C P; [now destruct i|].
    destruct i as [|i].
    + injection C as ->. cbn [ending_of]. unfold passes in N.
      destruct (valid_utf8 (snd c)); [|reflexivity].
      cbn [andb] in N. now rewrite N.
    + cbn [nth_error firstn forallb] in C, P.
      apply andb_true_iff in P. destruct P as [P0 P].
      unfold passes in P0. apply andb_true_iff in P0.
      destruct P0 as [V0 R0]. cbn [ending_of]. rewrite V0, R0.
      now apply IH with (i := i).
Qed.

End Stops.

(** ** Properties of the whole program *)



(** X2.  The output is opened in mode ["w"]: what the output file held
    before the run has no effect.  A run that opens its output goes the
    same way, to the same file system, whatever bytes the output file
    held. *)
Theorem main_discards_previous_output flushed prog cartella out fs fs0 t :
  isdir fs cartella = true -> open_w fs out = Some fs0 ->
  run_main flushed prog [cartella; out] (put_raw fs out t) =
  run_main flushed prog [cartella; out] fs.
Proof.
  intros D O. apply run_main_same_open with (fs0 := fs0).
  - assumption.
  - now rewrite isdir_put_raw.
  - assumption.
  - now rewrite open_w_after_put_raw.
Qed.

Lemma main_discards_previous_output_witness :
  run_main all_buffered "concat-js.py" [["proj"]; ["proj"; "c.txt"]]
    (put_raw fs_demo ["proj"; "c.txt"] "other notes") =
  run_main all_buffered "concat-js.py" [["proj"]; ["proj"; "c.txt"]] fs_demo.
Proof.
  exact (main_discards_previous_output all_buffered "concat-js.py"
           ["proj"] ["proj"; "c.txt"] fs_demo _ "other notes"
           eq_refl eq_refl).
Defined.

(** X3.  When the input directory holds no candidate file, nothing is
    written: the output file is still created, or truncated, and is left
    empty. *)
Theorem processa_no_candidate_empty_output flushed fs cartella out fs0 :
  open_w fs out = Some fs0 ->
  count_under is_js fs0 cartella = 0 ->
  let r := processa_js_files flushed cartella out (start fs) in
  fst r = inr tt /\ w_out (snd r) = [] /\
  content_at (w_fs (snd r)) out = Some "".
Proof.
  intros H Z r.
  destruct (processa_js_files_start flushed cartella out fs fs0 H)
    as (R & O & F).
  fold r in R, O, F. rewrite <- length_candidates in Z.
  assert (C : run_result flushed fs0 cartella out = ([], Finished)).
  { unfold run_result.
    destruct (candidates fs0 cartella); [reflexivity|discriminate Z]. }
  unfold run_ending, run_chunks in *. rewrite C in *.
  rewrite O, F, R. repeat split.
  now apply content_at_put_raw with (fs := fs).
Qed.

Lemma processa_no_candidate_empty_output_witness :
  let fs := Dir false true
              [("docs", Dir false true
                          [("readme.md", File None "notes");
                           ("app.JS", File None "let z=3;")]);
               ("out.txt", File None "old text")] in
  let r := processa_js_files all_buffered ["docs"] ["out.txt"] (start fs) in
  fst r = inr tt /\ w_out (snd r) = [] /\
  content_at (w_fs (snd r)) ["out.txt"] = Some "".
Proof.
  exact (processa_no_candidate_empty_output all_buffered
           (Dir false true
              [("docs", Dir false true
                          [("readme.md", File None "notes");
                           ("app.JS", File None "let z=3;")]);
               ("out.txt", File None "old text")])
           ["docs"] ["out.txt"] _ eq_refl eq_refl).
Defined.

(** The lines printed and the files read by a run of [main] that opens
    its output. *)
Lemma run_main_prints flushed prog cartella out fs fs0 :
  isdir fs cartella = true -> open_w fs out = Some fs0 ->
  prints_of (w_log (snd (run_main flushed prog [cartella; out] fs))) =
  match ending_of fs0 (candidates fs0 cartella) with
  | Finished => [completed out]
  | _ => []
  end.
Proof.
  intros D O. rewrite (run_main_run flushed prog cartella out fs fs0 D O).
  cbn [snd w_log]. rewrite !prints_of_app.
  unfold prints_of at 2.
  rewrite (flat_map_trace_of _ _ flushed fs0 out _ (fun _ => eq_refl)).
  fold (prints_of
          (events_of out
             (blocks_from flushed fs0 out []
                (candidates_of (os_walk fs0 cartella))))).
  rewrite prints_of_events.
  fold (run_ending flushed fs0 cartella out). rewrite run_ending_of.
  now destruct (ending_of fs0 (candidates fs0 cartella)).
Qed.



Lemma run_main_reads flushed prog cartella out fs fs0 :
  isdir fs cartella = true -> open_w fs out = Some fs0 ->
  reads_of (w_log (snd (run_main flushed prog [cartella; out] fs))) =
  reads_of (events_of out (run_result flushed fs0 cartella out)).
Proof.
  intros D O. rewrite (run_main_run flushed prog cartella out fs fs0 D O).
  cbn [snd w_log]. rewrite !reads_of_app.
  unfold reads_of at 2.
  rewrite (flat_map_trace_of _ _ flushed fs0 out _ (fun _ => eq_refl)).
  replace (reads_of (closing out (snd (run_result flushed fs0 cartella out))))
    with (@nil path) by (now destruct (snd _)).
  replace (reads_of match snd (run_result flushed fs0 cartella out) with
                    | Finished => [EvPrint (completed out)]
                    | _ => []
                    end)
    with (@nil path) by (now destruct (snd _)).
  now rewrite !app_nil_r.
Qed.

(** X5.  The files the program opens for reading are candidate files,
    each once, in the order of the traversal: the candidates up to the
    one the loops stop at, all of them when every name can be encoded
    and none is a FIFO.  Every path opened lies below the input
    directory and its last component is some text followed by [.js]. *)
Theorem main_reads_only_candidates flushed prog cartella out fs fs0 :
  isdir fs cartella = true -> open_w fs out = Some fs0 ->
  let log := w_log (snd (run_main flushed prog [cartella; out] fs)) in
  (exists k,
      reads_of log = map path_of (firstn k (candidates fs0 cartella))) /\
  (forallb (passes fs0) (candidates fs0 cartella) = true ->
   reads_of log = map path_of (candidates fs0 cartella)) /\
  (forall p, In p (reads_of log) ->
     exists rel pre, p = (cartella ++ rel ++ [(pre ++ ".js")%string])%list).
Proof.
  intros D O log.
  assert (E : exists k,
             reads_of log = map path_of (firstn k (candidates fs0 cartella))).
  { unfold log. rewrite (run_main_reads flushed prog cartella out fs fs0 D O).
    unfold run_result.
    destruct (blocks_from_split flushed fs0 out (candidates fs0 cartella) [])
      as (rest & C & T).
    cbv zeta in C, T.
    destruct (blocks_from flushed fs0 out [] (candidates fs0 cartella))
      as [bs e].
    cbn [fst snd] in C, T. rewrite reads_of_events, C.
    destruct e as [| |root filename].
    - exists (List.length bs). subst rest. rewrite !app_nil_r.
      rewrite <- (length_map b_where bs), firstn_all.
      now rewrite map_map.
    - exists (List.length bs). rewrite app_nil_r.
      rewrite <- (length_map b_where bs), firstn_app, firstn_all.
      rewrite Nat.sub_diag, firstn_0, app_nil_r. now rewrite map_map.
    - destruct T as [rest' ->]. exists (S (List.length bs)).
      rewrite <- (length_map b_where bs).
      rewrite firstn_app, firstn_all2 by lia.
      replace (S (List.length (map b_where bs))
               - List.length (map b_where bs)) with 1 by lia.
      cbn [firstn]. now rewrite map_app, map_map. }
  split; [assumption|]. split.
  - intros P. unfold log.
    rewrite (run_main_reads flushed prog cartella out fs fs0 D O).
    pose proof (blocks_from_all flushed fs0 out _ [] P) as M.
    apply ending_of_finished in P.
    rewrite <- (snd_blocks_from flushed fs0 out _ []) in P.
    unfold run_result.
    destruct (blocks_from flushed fs0 out [] (candidates fs0 cartella))
      as [bs e].
    cbn [fst snd] in M, P. subst e. rewrite reads_of_events, app_nil_r.
    rewrite <- M. now rewrite map_map.
  - intros p H. destruct E as [k E]. rewrite E in H. apply in_map_iff in H.
    destruct H as ([root nm] & <- & H).
    assert (H' : In (root, nm) (candidates fs0 cartella))
      by (rewrite <- (firstn_skipn k (candidates fs0 cartella));
          apply in_or_app; now left).
    clear H. rename H' into H.
    pose proof (candidates_of_js (os_walk fs0 cartella)) as J.
    rewrite Forall_forall in J. specialize (J _ H).
    destruct (candidates_below _ _ _ H) as (rel & R).
    cbn [fst snd] in R, J. subst root. apply endswith_iff in J.
    destruct J as [pre ->]. exists rel, pre.
    unfold path_of, os_path_join. cbn [fst snd]. now rewrite <- app_assoc.
Qed.

Lemma main_reads_only_candidates_witness :
  let log := w_log (snd (run_main all_buffered "concat-js.py"
                           [["pipes"]; ["out.txt"]] fs_links)) in
  (exists k,
      reads_of log =
      map path_of (firstn k (candidates fs_links_opened ["pipes"]))) /\
  (forallb (passes fs_links_opened) (candidates fs_links_opened ["pipes"])
   = true ->
   reads_of log = map path_of (candidates fs_links_opened ["pipes"])) /\
  (forall p, In p (reads_of log) ->
     exists rel pre, p = (["pipes"] ++ rel ++ [(pre ++ ".js")%string])%list).
Proof.
  exact (main_reads_only_candidates all_buffered "concat-js.py"
           ["pipes"] ["out.txt"] fs_links fs_links_opened eq_refl eq_refl).
Defined.

(** X6.  When the input is a directory and opening the output for
    writing raises an error, the run ends with status 1 after the test
    of the input and the attempt to open the output: nothing is printed
    on standard output, no directory is listed, no file is read, and the
    file system is left as it was. *)
Theorem main_output_cannot_be_opened flushed prog cartella out fs :
  isdir fs cartella = true -> open_for_writing fs out = Refused ->
  let r := run_main flushed prog [cartella; out] fs in
  fst r = Some 1 /\ w_fs (snd r) = fs /\
  w_log (snd r) = [EvIsdir cartella; EvOpenW out] /\
  prints_of (w_log (snd r)) = [] /\ reads_of (w_log (snd r)) = [].
Proof.
  intros D O r. unfold r.
  rewrite (run_main_refused flushed prog cartella out fs D O).
  now repeat split.
Qed.

Lemma main_output_cannot_be_opened_witness :
  let r := run_main all_buffered "concat-js.py"
             [["proj"]; ["missing"; "out.txt"]] fs_demo in
  fst r = Some 1 /\ w_fs (snd r) = fs_demo /\
  w_log (snd r) = [EvIsdir ["proj"]; EvOpenW ["missing"; "out.txt"]] /\
  prints_of (w_log (snd r)) = [] /\ reads_of (w_log (snd r)) = [].
Proof.
  exact (main_output_cannot_be_opened all_buffered "concat-js.py"
           ["proj"] ["missing"; "out.txt"] fs_demo eq_refl eq_refl).
Defined.

(** ** The output file and the input directory *)

Lemma walked_lookup rel : forall n es,
  walked n rel = Some es -> exists l, lookup n rel = Some (Dir l true es).
Proof.
  induction rel as [|x rel IH]; intros [d t| |l [|] es0] es W;
    simpl in W; try discriminate.
  - injection W as ->. now exists l.
  - simpl. destruct (assoc x es0) as [c|]; [|discriminate].
    destruct (entered c); [|discriminate]. now apply IH.
Qed.

Lemma text_of_blocks_ends_with_newline bs :
  bs <> [] -> exists pre, text_of (flat_map render bs) = pre ++ nl.
Proof.
  induction bs as [|b bs IH]; intros N; [now elim N|].
  cbn [flat_map render app]. rewrite !text_of_cons.
  destruct bs as [|b' bs].
  - cbn [flat_map]. change (text_of []) with "". rewrite append_empty_r.
    unfold body, annotation. destruct (b_seen b) as [c|e].
    + exists (header (b_name b) ++ c). now rewrite append_assoc.
    + exists (header (b_name b) ++ "// Impossibile leggere "
              ++ b_name b ++ ": " ++ text_of_message e).
      now rewrite !append_assoc.
  - destruct IH as [pre E]; [discriminate|]. rewrite E.
    exists (header (b_name b) ++ body b ++ pre).
    now rewrite !append_assoc.
Qed.

(** X7.  When the output path is itself a file, in a directory the
    traversal lists, with a name that ends in [.js], the output file is
    one of the candidates of the traversal, since it is opened before
    the walk starts: when the loops get to it, it gets a block of its
    own, whose second chunk is what reading the half-written output
    gives at that point. *)
Theorem processa_output_below_input_is_candidate
    flushed fs cartella out fs0 top rel es nm :
  open_w fs out = Some fs0 ->
  out = (cartella ++ rel ++ [nm])%list ->
  lookup fs0 cartella = Some top ->
  walked top rel = Some es ->
  endswith nm ".js" = true ->
  let chunks :=
    w_out (snd (processa_js_files flushed cartella out (start fs))) in
  exists i deny,
    lookup fs0 out = Some (File deny "") /\
    nth_error (candidates fs0 cartella) i =
      Some ((cartella ++ rel)%list, nm) /\
    (reached fs0 (candidates fs0 cartella) i = true ->
     nth_error chunks (2 * i) = Some ("//" ++ nm ++ nl) /\
     nth_error chunks (2 * i + 1) =
       second_chunk nm
         match deny with
         | Some e => Error e
         | None => decode (flushed (firstn (2 * i + 1) chunks))
         end).
Proof.
  intros H E T W J chunks.
  destruct (open_w_lookup _ _ _ H) as [deny L].
  assert (A : assoc nm es = Some (File deny "")).
  { pose proof L as L'. rewrite E, lookup_app, T, lookup_app in L'.
    destruct (walked_lookup _ _ _ W) as [l R]. rewrite R in L'.
    simpl in L'. now destruct (assoc nm es). }
  assert (C : In ((cartella ++ rel)%list, nm) (candidates fs0 cartella)).
  { unfold candidates, os_walk. rewrite T.
    eapply candidates_walk_node_reached; try eassumption. reflexivity. }
  apply In_nth_error in C. destruct C as [i C]. exists i, deny.
  split; [assumption|]. split; [assumption|]. intros G.
  pose proof (processa_chunks_of_candidate flushed fs cartella out fs0
                i _ nm H C) as B.
  cbv zeta in B. fold chunks in B. rewrite G in B.
  destruct B as [B1 B2]. split; [assumption|].
  rewrite B2. f_equal.
  unfold os_path_join. rewrite <- app_assoc, <- E.
  unfold fs_at_read, read_path.
  rewrite (lookup_put_raw_same _ _ _ _ _ L). now destruct deny.
Qed.

Lemma processa_output_below_input_is_candidate_witness :
  let fs0 := Dir false true
               [("proj",
                 Dir false true
                   [("a.js", File None "let x=1;");
                    ("bundle.js", File None "")])] in
  let chunks :=
    w_out (snd (processa_js_files (fun _ => "//a") ["proj"]
                  ["proj"; "bundle.js"]
                  (start (Dir false true
                            [("proj",
                              Dir false true
                                [("a.js", File None "let x=1;")])])))) in
  exists i deny,
    lookup fs0 ["proj"; "bundle.js"] = Some (File deny "") /\
    nth_error (candidates fs0 ["proj"]) i =
      Some ((["proj"] ++ [])%list, "bundle.js") /\
    (reached fs0 (candidates fs0 ["proj"]) i = true ->
     nth_error chunks (2 * i) = Some ("//" ++ "bundle.js" ++ nl) /\
     nth_error chunks (2 * i + 1) =
       second_chunk "bundle.js"
         match deny with
         | Some e => Error e
         | None => decode ((fun _ => "//a") (firstn (2 * i + 1) chunks))
         end).
Proof.
  exact (processa_output_below_input_is_candidate (fun _ => "//a")
           (Dir false true
              [("proj", Dir false true [("a.js", File None "let x=1;")])])
           ["proj"] ["proj"; "bundle.js"]
           (Dir false true
              [("proj",
                Dir false true
                  [("a.js", File None "let x=1;");
                   ("bundle.js", File None "")])])
           (Dir false true
              [("a.js", File None "let x=1;"); ("bundle.js", File None "")])
           []
           [("a.js", File None "let x=1;"); ("bundle.js", File None "")]
           "bundle.js" eq_refl eq_refl eq_refl eq_refl eq_refl).
Defined.





(** X9.  The traversal is top-down: the matching files that lie directly
    in the input directory are the first candidates, in the order of
    the directory's listing, before those of any sub-directory, and
    their blocks come first in the output. *)
Theorem processa_top_directory_first
    flushed fs cartella out fs0 l es i nm :
  open_w fs out = Some fs0 ->
  lookup fs0 cartella = Some (Dir l true es) ->
  nth_error (filter is_js (filenames es)) i = Some nm ->
  let chunks :=
    w_out (snd (processa_js_files flushed cartella out (start fs))) in
  nth_error (candidates fs0 cartella) i = Some (cartella, nm) /\
  (reached fs0 (candidates fs0 cartella) i = true ->
   nth_error chunks (2 * i) = Some ("//" ++ nm ++ nl)).
Proof.
  intros H L N chunks.
  assert (C : nth_error (candidates fs0 cartella) i = Some (cartella, nm)).
  { unfold candidates, os_walk. rewrite L, walk_node_Dir, candidates_of_cons.
    rewrite nth_error_app1.
    - now rewrite nth_error_map, N.
    - rewrite length_map. apply nth_error_Some. congruence. }
  split; [assumption|]. intros G.
  pose proof (processa_chunks_of_candidate flushed fs cartella out fs0
                i cartella nm H C) as B.
  cbv zeta in B. fold chunks in B. rewrite G in B. apply B.
Qed.

Lemma processa_top_directory_first_witness :
  let chunks :=
    w_out (snd (processa_js_files all_buffered ["proj"] ["out.txt"]
                  (start fs_links))) in
  nth_error (candidates fs_links_opened ["proj"]) 0 = Some (["proj"], "d.js") /\
  (reached fs_links_opened (candidates fs_links_opened ["proj"]) 0 = true ->
   nth_error chunks (2 * 0) = Some ("//" ++ "d.js" ++ nl)).
Proof.
  exact (processa_top_directory_first all_buffered fs_links
           ["proj"] ["out.txt"] fs_links_opened false _ 0 "d.js"
           eq_refl eq_refl eq_refl).
Defined.

(** X10.  Every chunk written ends with a newline: when a run that ends
    has written anything, the text of the output file ends with a
    newline, whatever the last file holds and whether or not it could
    be read. *)
Theorem processa_output_ends_with_newline flushed fs cartella out fs0 :
  open_w fs out = Some fs0 ->
  let r := processa_js_files flushed cartella out (start fs) in
  fst r <> inl Blocked -> w_out (snd r) <> [] ->
  exists pre, content_at (w_fs (snd r)) out = Some (pre ++ nl).
Proof.
  intros H r N Z.
  destruct (processa_js_files_start flushed cartella out fs fs0 H)
    as (R & O & F).
  fold r in R, O, F. rewrite F, (content_at_put_raw fs out fs0 _ H).
  rewrite O in Z. rewrite R in N.
  unfold run_chunks, run_ending, chunks_of in *.
  destruct (run_result flushed fs0 cartella out) as [bs e].
  cbn [fst snd] in *.
  assert (E : final_raw flushed e (flat_map render bs ++ last_chunks e)
              = text_of (flat_map render bs)).
  { destruct e; cbn [final_raw last_chunks]; rewrite ?app_nil_r;
      try reflexivity. now elim N. }
  rewrite E.
  destruct (text_of_blocks_ends_with_newline bs) as [pre E'].
  - intros ->. destruct e; now elim Z.
  - exists pre. now rewrite E'.
Qed.

Lemma processa_output_ends_with_newline_witness :
  let r := processa_js_files all_buffered ["proj"] ["out.txt"]
             (start fs_latin1) in
  exists pre, content_at (w_fs (snd r)) ["out.txt"] = Some (pre ++ nl).
Proof.
  exact (processa_output_ends_with_newline all_buffered fs_latin1
           ["proj"] ["out.txt"] _ eq_refl ltac:(discriminate)
           ltac:(discriminate)).
Defined.

Lemma run_main_writes flushed prog cartella out fs fs0 :
  isdir fs cartella = true -> open_w fs out = Some fs0 ->
  writes_of (w_log (snd (run_main flushed prog [cartella; out] fs))) =
  writes_of (events_of out (run_result flushed fs0 cartella out)).
Proof.
  intros D O. rewrite (run_main_run flushed prog cartella out fs fs0 D O).
  cbn [snd w_log]. rewrite !writes_of_app.
  unfold writes_of at 2.
  rewrite (flat_map_trace_of _ _ flushed fs0 out _ (fun _ => eq_refl)).
  replace (writes_of (closing out (snd (run_result flushed fs0 cartella out))))
    with (@nil path) by (now destruct (snd _)).
  replace (writes_of match snd (run_result flushed fs0 cartella out) with
                     | Finished => [EvPrint (completed out)]
                     | _ => []
                     end)
    with (@nil path) by (now destruct (snd _)).
  now rewrite !app_nil_r.
Qed.

(** X11.  The only file the program writes to is the output: every
    write goes to the output path, and in a run that ends there are two
    writes for each file opened for reading. *)
Theorem main_writes_only_to_output flushed prog cartella out fs fs0 :
  isdir fs cartella = true -> open_w fs out = Some fs0 ->
  let r := run_main flushed prog [cartella; out] fs in
  Forall (eq out) (writes_of (w_log (snd r))) /\
  (fst r <> None ->
   List.length (writes_of (w_log (snd r))) =
   2 * List.length (reads_of (w_log (snd r)))).
Proof.
  intros D O r. unfold r.
  rewrite (run_main_writes flushed prog cartella out fs fs0 D O).
  rewrite (run_main_reads flushed prog cartella out fs fs0 D O).
  rewrite (run_main_run flushed prog cartella out fs fs0 D O).
  cbn [fst].
  destruct (run_result flushed fs0 cartella out) as [bs e]. cbn [snd].
  rewrite writes_of_events, reads_of_events. split.
  - apply Forall_app. split.
    + apply Forall_forall. intros x Hx. now apply repeat_spec in Hx.
    + destruct e; repeat constructor.
  - intros N. rewrite !length_app, repeat_length, length_map.
    destruct e; cbn [List.length result_of exit_status] in *;
      try lia. now elim N.
Qed.

Lemma main_writes_only_to_output_witness :
  let r := run_main all_buffered "concat-js.py" [["proj"]; ["out.txt"]]
             fs_demo in
  Forall (eq ["out.txt"]) (writes_of (w_log (snd r))) /\
  (fst r <> None ->
   List.length (writes_of (w_log (snd r))) =
   2 * List.length (reads_of (w_log (snd r)))).
Proof.
  exact (main_writes_only_to_output all_buffered "concat-js.py"
           ["proj"] ["out.txt"] fs_demo _ eq_refl eq_refl).
Defined.

(** ** Links, directories that cannot be listed, FIFOs and names *)



(** X13.  When the loops get to a candidate that is a FIFO, the program
    never ends: the header of the candidate is the last chunk written,
    the output is not closed and holds what the stream has passed on so
    far, and nothing is printed. *)
Theorem main_waits_on_fifo flushed prog cartella out fs fs0 i root nm :
  isdir fs cartella = true -> open_w fs out = Some fs0 ->
  nth_error (candidates fs0 cartella) i = Some (root, nm) ->
  reached fs0 (candidates fs0 cartella) i = true ->
  lookup fs0 (os_path_join root nm) = Some Fifo ->
  let r := run_main flushed prog [cartella; out] fs in
  fst r = None /\
  List.length (w_out (snd r)) = 2 * i + 1 /\
  nth_error (w_out (snd r)) (2 * i) = Some ("//" ++ nm ++ nl) /\
  content_at (w_fs (snd r)) out = Some (flushed (w_out (snd r))) /\
  prints_of (w_log (snd r)) = [] /\
  ~ In (EvClose out) (w_log (snd r)).
Proof.
  intros D O C G L r.
  unfold reached in G. rewrite C in G. cbn [snd] in G.
  apply andb_true_iff in G. destruct G as [P V].
  assert (N : passes fs0 (root, nm) = false).
  { unfold passes, returns, path_of. cbn [fst snd]. rewrite L.
    apply andb_false_r. }
  destruct (blocks_from_stop flushed fs0 out _ [] i _ C P N) as [Lb E].
  cbn [fst snd] in E. rewrite V in E.
  fold (run_result flushed fs0 cartella out) in Lb, E.
  pose proof (run_main_prints flushed prog cartella out fs fs0 D O) as Pr.
  rewrite <- (run_ending_of flushed fs0 cartella out) in Pr.
  unfold run_ending in Pr.
  rewrite E in Pr.
  unfold r. clear r.
  rewrite (run_main_run flushed prog cartella out fs fs0 D O) in Pr |- *.
  cbn [fst snd w_out w_fs w_log] in Pr |- *. rewrite E in Pr |- *.
  cbn [result_of exit_status final_raw closing].
  rewrite (content_at_put_raw fs out fs0 _ O).
  unfold chunks_of. rewrite E. cbn [last_chunks].
  split; [reflexivity|]. split; [|split; [|split; [reflexivity|]]].
  - rewrite length_app, length_flat_map_render, Lb. cbn [List.length]. lia.
  - rewrite nth_error_app2; rewrite length_flat_map_render, Lb; [|lia].
    now rewrite Nat.sub_diag.
  - split; [assumption|].
    rewrite !app_nil_r. intros I.
    destruct I as [I|[I|I]]; try discriminate I.
    clear - I. revert I. generalize (@nil string).
    induction (os_walk fs0 cartella) as [|[[rt ds] fl] ts IH]; intros ch I;
      [contradiction|].
    cbn [trace_of fst snd] in I. destruct I as [I|I]; [discriminate I|].
    apply in_app_or in I. destruct I as [I|I].
    + unfold events_of in I. apply in_app_or in I. destruct I as [I|I].
      * apply in_flat_map in I. destruct I as (b & _ & I).
        destruct I as [I|[I|[I|I]]]; try discriminate I. contradiction.
      * destruct (snd _); try contradiction.
        destruct I as [I|[I|I]]; try discriminate I. contradiction.
    + destruct (snd _); try contradiction. now apply IH in I.
Qed.

Lemma main_waits_on_fifo_witness :
  let r := run_main all_buffered "concat-js.py" [["pipes"]; ["out.txt"]]
             fs_links in
  fst r = None /\
  List.length (w_out (snd r)) = 2 * 1 + 1 /\
  nth_error (w_out (snd r)) (2 * 1) = Some ("//" ++ "p.js" ++ nl) /\
  content_at (w_fs (snd r)) ["out.txt"] =
    Some (all_buffered (w_out (snd r))) /\
  prints_of (w_log (snd r)) = [] /\
  ~ In (EvClose ["out.txt"]) (w_log (snd r)).
Proof.
  exact (main_waits_on_fifo all_buffered "concat-js.py"
           ["pipes"] ["out.txt"] fs_links fs_links_opened 1 ["pipes"] "p.js"
           eq_refl eq_refl eq_refl eq_refl eq_refl).
Defined.

(** X14.  When the loops get to a candidate whose name cannot be encoded
    in UTF-8, writing its header raises an error that nothing catches:
    the program ends with status 1 without printing anything; the output
    is closed and holds the blocks of the candidates before that one and
    nothing else. *)
Theorem main_stops_at_name_not_utf8
    flushed prog cartella out fs fs0 i root nm :
  isdir fs cartella = true -> open_w fs out = Some fs0 ->
  nth_error (candidates fs0 cartella) i = Some (root, nm) ->
  forallb (passes fs0) (firstn i (candidates fs0 cartella)) = true ->
  valid_utf8 nm = false ->
  let r := run_main flushed prog [cartella; out] fs in
  fst r = Some 1 /\
  List.length (w_out (snd r)) = 2 * i /\
  content_at (w_fs (snd r)) out = Some (text_of (w_out (snd r))) /\
  prints_of (w_log (snd r)) = [] /\
  List.length (reads_of (w_log (snd r))) = i.
Proof.
  intros D O C P V r.
  assert (N : passes fs0 (root, nm) = false).
  { unfold passes. cbn [snd]. now rewrite V. }
  destruct (blocks_from_stop flushed fs0 out _ [] i _ C P N) as [Lb E].
  cbn [fst snd] in E. rewrite V in E.
  fold (run_result flushed fs0 cartella out) in Lb, E.
  pose proof (run_main_prints flushed prog cartella out fs fs0 D O) as Pr.
  pose proof (run_main_reads flushed prog cartella out fs fs0 D O) as Rd.
  rewrite <- (run_ending_of flushed fs0 cartella out) in Pr.
  unfold run_ending in Pr.
  rewrite E in Pr. unfold r. clear r. rewrite Rd. clear Rd.
  rewrite (run_main_run flushed prog cartella out fs fs0 D O) in Pr |- *.
  cbn [fst snd w_out w_fs w_log] in Pr |- *. rewrite E in Pr |- *.
  cbn [result_of exit_status final_raw].
  rewrite (content_at_put_raw fs out fs0 _ O).
  unfold chunks_of. rewrite E. cbn [last_chunks]. rewrite app_nil_r.
  split; [reflexivity|]. split; [|split; [reflexivity|split]].
  - now rewrite length_flat_map_render, Lb.
  - assumption.
  - destruct (run_result flushed fs0 cartella out) as [bs e].
    cbn [fst snd] in *. subst e.
    now rewrite reads_of_events, app_nil_r, length_map.
Qed.

Lemma main_stops_at_name_not_utf8_witness :
  let r := run_main all_buffered "concat-js.py" [["proj"]; ["out.txt"]]
             fs_latin1 in
  fst r = Some 1 /\
  List.length (w_out (snd r)) = 2 * 1 /\
  content_at (w_fs (snd r)) ["out.txt"] = Some (text_of (w_out (snd r))) /\
  prints_of (w_log (snd r)) = [] /\
  List.length (reads_of (w_log (snd r))) = 1.
Proof.
  exact (main_stops_at_name_not_utf8 all_buffered "concat-js.py"
           ["proj"] ["out.txt"] fs_latin1 fs_latin1_opened 1 ["proj"]
           latin1_js eq_refl eq_refl eq_refl eq_refl eq_refl).
Defined.
